(** * js-assignments: dates and generators

    A shallow embedding of [src/task/03-date-tasks.js]: the leap-year test of
    the date tasks, [timeSpanToString], [angleBetweenClockHands] and the five
    generator functions of the yield tasks
    ([get99BottlesOfBeer], [getFibonacciSequence], [depthTraversalTree],
    [breadthTraversalTree], [mergeSortedSequences]).

    Conventions of the embedding.
    - A JavaScript number is an integer of [Z] or [NaN]; every number the
      modelled code computes on the inputs considered here is an integer far
      below 2^53, where JavaScript arithmetic is exact.
    - [angleBetweenClockHands] alone computes on fractions: there a number is
      a binary64 float of [PrimFloat].
    - [undefined] is [None] of an [option].
    - A generator object is a state machine: its state is what the suspended
      function body holds (its local variables and the place it is suspended
      at), and one call of [.next()] is one application of its step function,
      which runs the body up to the next [yield] or to its end.
    - Objects that outlive a call (the tree nodes) live in a store that every
      step takes and gives back, so that two generators over the same tree
      see each other's writes. *)

From stdpp Require Import gmap strings list pretty.
From Stdlib Require Import ZArith Lia.
From Stdlib Require Import PrimFloat.

Local Open Scope Z_scope.
Set Warnings "-register-all".

(** ** Numbers *)

Inductive number : Type :=
| Int (z : Z)
| NaN.

(** [a % b]: the remainder takes the sign of the dividend; [x % 0] is NaN. *)
Definition js_rem (a b : number) : number :=
  match a, b with
  | Int x, Int y => if y =? 0 then NaN else Int (Z.rem x y)
  | _, _ => NaN
  end.

(** [a === b] on numbers: NaN is equal to nothing. *)
Definition js_strict_eq (a b : number) : bool :=
  match a, b with
  | Int x, Int y => x =? y
  | _, _ => false
  end.

(** [a + b] where an operand may be [undefined], which converts to NaN. *)
Definition js_add (a b : option number) : number :=
  match a, b with
  | Some (Int x), Some (Int y) => Int (x + y)
  | _, _ => NaN
  end.

(** [Math.min(a, b)] and [Math.max(a, b)]: NaN as soon as one argument is. *)
Definition Math_min (a b : number) : number :=
  match a, b with
  | Int x, Int y => Int (Z.min x y)
  | _, _ => NaN
  end.

Definition Math_max (a b : number) : number :=
  match a, b with
  | Int x, Int y => Int (Z.max x y)
  | _, _ => NaN
  end.

(** [arr[i]]: [undefined] outside of the array, also for a negative index. *)
Definition array_get {A : Type} (arr : list A) (i : Z) : option A :=
  if i <? 0 then None else arr !! Z.to_nat i.

Definition array_length {A : Type} (arr : list A) : Z := Z.of_nat (length arr).

(** ** Dates *)

(** Of a [Date] the code reads the local full year only; an invalid date
    answers NaN to every getter. *)
Inductive Date : Type :=
| InvalidDate
| LocalDate (year month day : Z).

Definition getFullYear (date : Date) : number :=
  match date with
  | InvalidDate => NaN
  | LocalDate y _ _ => Int y
  end.

Definition isLeapYear (date : Date) : bool :=
  let divedeByFour := js_strict_eq (js_rem (getFullYear date) (Int 4)) (Int 0) in
  let notDivedeByOneHundred :=
    negb (js_strict_eq (js_rem (getFullYear date) (Int 100)) (Int 0)) in
  let divedeByFourHundred :=
    js_strict_eq (js_rem (getFullYear date) (Int 400)) (Int 0) in
  divedeByFour && notDivedeByOneHundred || divedeByFourHundred.

(** ** The iterator protocol *)

(** What [.next()] returns: [{ value, done }]. *)
Record IterResult (V : Type) : Type := MkResult {
  value : option V;
  done : bool
}.
Arguments MkResult {V} _ _.
Arguments value {V} _.
Arguments done {V} _.

Definition yielded {V : Type} (v : option V) : IterResult V := MkResult v false.
Definition finished {V : Type} : IterResult V := MkResult None true.

(** A generator function without parameters: calling it makes a generator
    object in the state [ginit]; [gnext] is one [.next()] of that object in
    the store [W]. *)
Record Generator (W V : Type) : Type := MkGen {
  gstate : Type;
  ginit : gstate;
  gnext : gstate -> W -> IterResult V * gstate * W
}.
Arguments MkGen {W V} _ _ _.
Arguments gstate {W V} _.
Arguments ginit {W V} _.
Arguments gnext {W V} _ _ _.

Section Consumers.
Context {W V St : Type}.
Variable next : St -> W -> IterResult V * St * W.

(** [n] calls of [.next()], whatever they answer. *)
Fixpoint pulls (n : nat) (s : St) (w : W) : list (IterResult V) * St * W :=
  match n with
  | O => ([], s, w)
  | S n' =>
      let '(r, s1, w1) := next s w in
      let '(rs, s2, w2) := pulls n' s1 w1 in
      (r :: rs, s2, w2)
  end.

(** [for (let v of it)] to the end, as [Array.from(it)] does: [.next()] is
    called until an answer has [done] set, and that last answer is dropped.
    [None] when [fuel] calls were not enough. *)
Fixpoint consume (fuel : nat) (s : St) (w : W)
  : option (list (option V) * St * W) :=
  match fuel with
  | O => None
  | S fuel' =>
      let '(r, s1, w1) := next s w in
      if done r then Some ([], s1, w1)
      else match consume fuel' s1 w1 with
           | Some (vs, s2, w2) => Some (value r :: vs, s2, w2)
           | None => None
           end
  end.
End Consumers.

Definition values_of {V : Type} (rs : list (IterResult V)) : list (option V) :=
  map value rs.

(** ** getFibonacciSequence *)

Definition getNextValues (values : list number) (index : Z)
  : option number * list number :=
  let values' :=
    if array_length values <=? index
    then values ++ [js_add (array_get values (index - 2))
                           (array_get values (index - 1))]
    else values in
  (array_get values' index, values').

(** The state is the array [values] and the loop counter [i] at the loop
    test; the increment that follows the [yield] is done with the step that
    yields. *)
Definition fib_next {W : Type} (s : list number * Z) (w : W)
  : IterResult number * (list number * Z) * W :=
  let '(values, i) := s in
  if i <? 39 then
    let '(v, values') := getNextValues values i in
    (yielded v, (values', i + 1), w)
  else (finished, (values, i), w).

Definition getFibonacciSequence {W : Type} : Generator W number :=
  MkGen (list number * Z)%type ([Int 0; Int 1], 0) fib_next.

(** The recurrence of the specification. *)
Fixpoint fib (n : nat) : Z :=
  match n with
  | O => 0
  | S m => match m with
           | O => 1
           | S k => fib m + fib k
           end
  end.

(** The first [k] terms, as the array [values] holds them. *)
Definition fibs (k : nat) : list number := map (fun j => Int (fib j)) (seq 0 k).

(** Two consecutive terms at once, to evaluate [fib] in linear time. *)
Fixpoint fib_pair (n : nat) : Z * Z :=
  match n with
  | O => (0, 1)
  | S m => let '(a, b) := fib_pair m in (b, a + b)
  end.

(** ** get99BottlesOfBeer *)

Definition bottles (i : Z) : string :=
  if i =? 1 then "1 bottle" else pretty i +:+ " bottles".

(** Where the body is suspended: before the loop test with counter [i], at
    the first or at the second [yield] of the iteration [i], at one of the two
    closing [yield]s, or after its end. *)
Inductive bottles_state : Type :=
| BottlesLoop (i : Z)
| BottlesVerse (i : Z)
| BottlesTake (i : Z)
| BottlesNoMore
| BottlesGo
| BottlesEnd.

Definition bottles_loop {W : Type} (i : Z) (w : W)
  : IterResult string * bottles_state * W :=
  if 1 <=? i then
    (yielded (Some (bottles i +:+ " of beer on the wall, " +:+ bottles i
                    +:+ " of beer.")),
     BottlesVerse i, w)
  else
    (yielded (Some "No more bottles of beer on the wall, no more bottles of beer."),
     BottlesNoMore, w).

Definition bottles_next {W : Type} (s : bottles_state) (w : W)
  : IterResult string * bottles_state * W :=
  match s with
  | BottlesLoop i => bottles_loop i w
  | BottlesVerse i =>
      if i =? 1 then
        (yielded (Some "Take one down and pass it around, no more bottles of beer on the wall."),
         BottlesTake i, w)
      else
        (yielded (Some ("Take one down and pass it around, " +:+ bottles (i - 1)
                        +:+ " of beer on the wall.")),
         BottlesTake i, w)
  | BottlesTake i => bottles_loop (i - 1) w
  | BottlesNoMore =>
      (yielded (Some "Go to the store and buy some more, 99 bottles of beer on the wall."),
       BottlesGo, w)
  | BottlesGo => (finished, BottlesEnd, w)
  | BottlesEnd => (finished, BottlesEnd, w)
  end.

Definition get99BottlesOfBeer {W : Type} : Generator W string :=
  MkGen bottles_state (BottlesLoop 99) bottles_next.

(** ** Trees in the store *)

(** A node object [{ n: ..., children: [...] }]; a leaf has no [children]
    property. Nodes are held by reference. The array of a node is stored with
    the node: in a tree no two nodes share one array. *)
Abbreviation ref := nat (only parsing).

Record node : Type := MkNode {
  payload : Z;
  children : option (list ref)
}.

Abbreviation store := (gmap nat node).

(** [r.children]; a reference the store does not hold reads as a leaf. *)
Definition get_children (h : store) (r : ref) : option (list ref) :=
  h !! r ≫= children.

(** [r.children.reverse()] reverses the array of [r] in place. *)
Definition reverse_children (h : store) (r : ref) : store :=
  alter (fun nd => MkNode (payload nd) (@rev ref <$> children nd)) r h.

(** [arr.pop()]: the last element and the array without it. *)
Definition array_pop {A : Type} (arr : list A) : option (A * list A) :=
  match rev arr with
  | [] => None
  | x :: r => Some (x, rev r)
  end.

(** ** depthTraversalTree *)

(** The body is suspended before the [while] test with the work list [nodes],
    at the [yield] with [curr] and [nodes], or is over. *)
Inductive dfs_state : Type :=
| DfsLoop (nodes : list ref)
| DfsYielded (curr : ref) (nodes : list ref)
| DfsDone.

Definition dfs_loop (nodes : list ref) (h : store)
  : IterResult ref * dfs_state * store :=
  match array_pop nodes with
  | None => (finished, DfsDone, h)
  | Some (curr, rest) => (yielded (Some curr), DfsYielded curr rest, h)
  end.

(** After the [yield]: [if (curr.children) nodes.push(...curr.children.reverse())]. *)
Definition dfs_resume (curr : ref) (nodes : list ref) (h : store)
  : list ref * store :=
  match get_children h curr with
  | Some cs => (nodes ++ rev cs, reverse_children h curr)
  | None => (nodes, h)
  end.

Definition dfs_next (s : dfs_state) (h : store)
  : IterResult ref * dfs_state * store :=
  match s with
  | DfsLoop nodes => dfs_loop nodes h
  | DfsYielded curr nodes =>
      let '(nodes', h') := dfs_resume curr nodes h in dfs_loop nodes' h'
  | DfsDone => (finished, DfsDone, h)
  end.

Definition depthTraversalTree (root : ref) : Generator store ref :=
  MkGen dfs_state (DfsLoop [root]) dfs_next.

(** ** breadthTraversalTree *)

(** [for (let node of nodes)] walks the array by an index and sees what is
    pushed meanwhile. The body is suspended before the iterator is asked for
    the element at [idx], at the [yield] with [node], or is over. *)
Inductive bfs_state : Type :=
| BfsLoop (nodes : list ref) (idx : nat)
| BfsYielded (node : ref) (nodes : list ref) (idx : nat)
| BfsDone.

Definition bfs_loop (nodes : list ref) (idx : nat) (h : store)
  : IterResult ref * bfs_state * store :=
  match nodes !! idx with
  | None => (finished, BfsDone, h)
  | Some nd => (yielded (Some nd), BfsYielded nd nodes (S idx), h)
  end.

(** After the [yield]: [if (node.children) nodes.push(...node.children)]. *)
Definition bfs_resume (nd : ref) (nodes : list ref) (h : store) : list ref :=
  match get_children h nd with
  | Some cs => nodes ++ cs
  | None => nodes
  end.

Definition bfs_next (s : bfs_state) (h : store)
  : IterResult ref * bfs_state * store :=
  match s with
  | BfsLoop nodes idx => bfs_loop nodes idx h
  | BfsYielded nd nodes idx => bfs_loop (bfs_resume nd nodes h) idx h
  | BfsDone => (finished, BfsDone, h)
  end.

Definition breadthTraversalTree (root : ref) : Generator store ref :=
  MkGen bfs_state (BfsLoop [root] 0) bfs_next.

(** ** mergeSortedSequences *)

Section Merge.
Context {W St1 St2 : Type}.
(** [seq1.next()] and [seq2.next()], for generator objects whose states
    are of [St1] and [St2]. *)
Variable next1 : St1 -> W -> IterResult number * St1 * W.
Variable next2 : St2 -> W -> IterResult number * St2 * W.

(** The body is suspended where the next thing to do is the loop body from
    its start (before the first call, and at each [yield] that ends a
    round), or at [yield Math.min(s1, s2)] with [s1] and [s2] in hand. *)
Inductive merge_state : Type :=
| MergeLoop (seq1 : St1) (seq2 : St2)
| MergeMin (s1 s2 : number) (seq1 : St1) (seq2 : St2).

Definition merge_next (s : merge_state) (w : W)
  : IterResult number * merge_state * W :=
  match s with
  | MergeLoop seq1 seq2 =>
      let '(r1, seq1', w1) := next1 seq1 w in
      let '(r2, seq2', w2) := next2 seq2 w1 in
      match value r1, value r2 with
      | None, s2 => (yielded s2, MergeLoop seq1' seq2', w2)
      | Some s1, None => (yielded (Some s1), MergeLoop seq1' seq2', w2)
      | Some s1, Some s2 =>
          (yielded (Some (Math_min s1 s2)), MergeMin s1 s2 seq1' seq2', w2)
      end
  | MergeMin s1 s2 seq1 seq2 =>
      (yielded (Some (Math_max s1 s2)), MergeLoop seq1 seq2, w)
  end.
End Merge.
Arguments merge_state : clear implicits.

(** [seq1 = source1(), seq2 = source2()] are made when the body starts. *)
Definition mergeSortedSequences {W : Type} (source1 source2 : Generator W number)
  : Generator W number :=
  MkGen (merge_state (gstate source1) (gstate source2))
        (MergeLoop (ginit source1) (ginit source2))
        (merge_next (gnext source1) (gnext source2)).

(** ** Sources for the merge *)

(** [function* () { yield l[0]; yield l[1]; ... }]: the values of [l], then
    [{ value: undefined, done: true }] for ever. *)
Definition list_next {W : Type} (s : list number) (w : W)
  : IterResult number * list number * W :=
  match s with
  | [] => (finished, [], w)
  | x :: s' => (yielded (Some x), s', w)
  end.

Definition list_source {W : Type} (l : list number) : Generator W number :=
  MkGen (list number) l list_next.

(** [function* () { for (var i = start; true; i += step) yield i; }] *)
Definition count_next {W : Type} (step : Z) (i : Z) (w : W)
  : IterResult number * Z * W :=
  (yielded (Some (Int i)), i + step, w).

Definition count_source {W : Type} (start step : Z) : Generator W number :=
  MkGen Z start (count_next step).

(** A generator object of [g], and what a consumer does with it. *)
Definition pull {W V : Type} (g : Generator W V) (n : nat) (w : W)
  : list (IterResult V) :=
  (pulls (gnext g) n (ginit g) w).1.1.

Definition collect {W V : Type} (g : Generator W V) (fuel : nat) (w : W)
  : option (list (option V) * W) :=
  (fun r => (r.1.1, r.2)) <$> consume (gnext g) fuel (ginit g) w.

(** ** Trees of the specification *)

Inductive tree : Type :=
| Tree (id : ref) (kids : list tree).

Definition root (t : tree) : ref := match t with Tree id _ => id end.
Definition subtrees (t : tree) : list tree := match t with Tree _ ks => ks end.

Fixpoint preorder (t : tree) : list ref :=
  match t with
  | Tree id ks => id :: flat_map preorder ks
  end.

Fixpoint tsize (t : tree) : nat :=
  match t with
  | Tree _ ks => S (list_sum (map tsize ks))
  end.

Fixpoint height (t : tree) : nat :=
  match t with
  | Tree _ ks => S (list_max (map height ks))
  end.

(** The nodes at depth [d], from left to right. *)
Fixpoint level (d : nat) (t : tree) : list ref :=
  match d, t with
  | O, Tree id _ => [id]
  | S d', Tree _ ks => flat_map (level d') ks
  end.

Definition levelorder (t : tree) : list ref :=
  flat_map (fun d => level d t) (seq 0 (height t)).

(** [r] is a node of [t]. *)
Inductive node_of (r : ref) : tree -> Prop :=
| node_here ks : node_of r (Tree r ks)
| node_below id ks k : k ∈ ks -> node_of r k -> node_of r (Tree id ks).

(** The same notions for a forest, a list of trees side by side. *)
Definition fsize (ts : list tree) : nat := list_sum (map tsize ts).
Definition fheight (ts : list tree) : nat := list_max (map height ts).
Definition flevel (d : nat) (ts : list tree) : list ref := flat_map (level d) ts.
Definition forder (ts : list tree) : list ref :=
  flat_map (fun d => flevel d ts) (seq 0 (fheight ts)).

(** The store holds the tree [t]: each node is an object whose [children]
    array lists the roots of its subtrees in order, a missing [children]
    being the same as an empty one. *)
Inductive holds (h : store) : tree -> Prop :=
| holds_node id ks nd :
    h !! id = Some nd ->
    default [] (children nd) = map root ks ->
    Forall (holds h) ks ->
    holds h (Tree id ks).

(** The tree of the comment above [depthTraversalTree]. *)
Definition example_store : store :=
  list_to_map
    [ (1%nat, MkNode 1 (Some [2; 6; 7]%nat));
      (2%nat, MkNode 2 (Some [3; 4]%nat));
      (3%nat, MkNode 3 None);
      (4%nat, MkNode 4 (Some [5]%nat));
      (5%nat, MkNode 5 None);
      (6%nat, MkNode 6 None);
      (7%nat, MkNode 7 (Some [8]%nat));
      (8%nat, MkNode 8 None) ].

Definition example_tree : tree :=
  (Tree 1 [ Tree 2 [ Tree 3 []; Tree 4 [ Tree 5 [] ] ];
            Tree 6 [];
            Tree 7 [ Tree 8 [] ] ])%nat.

(** The tree of the comment above [breadthTraversalTree]. *)
Definition example_store_bfs : store :=
  list_to_map
    [ (1%nat, MkNode 1 (Some [2; 3; 4]%nat));
      (2%nat, MkNode 2 (Some [5; 6]%nat));
      (3%nat, MkNode 3 None);
      (4%nat, MkNode 4 (Some [7]%nat));
      (5%nat, MkNode 5 None);
      (6%nat, MkNode 6 (Some [8]%nat));
      (7%nat, MkNode 7 None);
      (8%nat, MkNode 8 None) ].

Definition example_tree_bfs : tree :=
  (Tree 1 [ Tree 2 [ Tree 5 []; Tree 6 [ Tree 8 [] ] ];
            Tree 3 [];
            Tree 4 [ Tree 7 [] ] ])%nat.


(** The song as the documentation of [get99BottlesOfBeer] lays it out. *)
Definition count_phrase (i : Z) : string :=
  if i =? 0 then "no more bottles"
  else if i =? 1 then "1 bottle"
  else pretty i +:+ " bottles".

Definition verse_line (i : Z) : string :=
  count_phrase i +:+ " of beer on the wall, " +:+ count_phrase i +:+ " of beer.".

Definition take_line (i : Z) : string :=
  "Take one down and pass it around, " +:+ count_phrase (i - 1)
  +:+ " of beer on the wall.".

Definition song : list string :=
  flat_map (fun k => [verse_line (99 - Z.of_nat k); take_line (99 - Z.of_nat k)])
           (seq 0 99)
  ++ [ "No more bottles of beer on the wall, no more bottles of beer.";
       "Go to the store and buy some more, 99 bottles of beer on the wall." ].

(** [k | n] for a JavaScript number: NaN is a multiple of nothing. *)
Definition divisible (k : Z) (n : number) : Prop :=
  match n with
  | Int y => (k | y)
  | NaN => False
  end.

(** What the merge yields from two finite sources before both have run out:
    one value of each per round, the two of a round in order. *)
Fixpoint rounds (l1 l2 : list number) : list number :=
  match l1, l2 with
  | [], _ => l2
  | _, [] => l1
  | x :: l1', y :: l2' => Math_min x y :: Math_max x y :: rounds l1' l2'
  end.

(** Non-decreasing, for a sequence of yielded values. *)
Fixpoint ascending (vs : list (option number)) : bool :=
  match vs with
  | Some (Int a) :: ((Some (Int b) :: _) as rest) => (a <=? b) && ascending rest
  | [] | [Some (Int _)] => true
  | _ => false
  end.

(** The answer of a consumer with the values [vs] put in front. *)
Definition prepend {V St W : Type} (vs : list (option V))
    (o : option (list (option V) * St * W)) : option (list (option V) * St * W) :=
  (fun r => (vs ++ r.1.1, r.1.2, r.2)) <$> o.

(** ** timeSpanToString *)

(** [a - b] and [a < b] on numbers, and the conversion of a number to a
    string as [+] does it next to a string: an integer in decimal digits with
    its sign (the integers met here are far below 1e21, where the notation
    changes), NaN as its name. *)
Definition js_sub (a b : number) : number :=
  match a, b with
  | Int x, Int y => Int (x - y)
  | _, _ => NaN
  end.

Definition js_lt (a b : number) : bool :=
  match a, b with
  | Int x, Int y => x <? y
  | _, _ => false
  end.

Definition js_to_string (a : number) : string :=
  match a with
  | Int x => pretty x
  | NaN => "NaN"
  end.

(** Of its two dates [timeSpanToString] reads the four UTC getters of the
    time of day only; an invalid date answers NaN to each. *)
Inductive UTCDate : Type :=
| InvalidUTCDate
| UTCTime (hours minutes seconds milliseconds : Z).

Definition getUTCHours (d : UTCDate) : number :=
  match d with InvalidUTCDate => NaN | UTCTime h _ _ _ => Int h end.
Definition getUTCMinutes (d : UTCDate) : number :=
  match d with InvalidUTCDate => NaN | UTCTime _ m _ _ => Int m end.
Definition getUTCSeconds (d : UTCDate) : number :=
  match d with InvalidUTCDate => NaN | UTCTime _ _ s _ => Int s end.
Definition getUTCMilliseconds (d : UTCDate) : number :=
  match d with InvalidUTCDate => NaN | UTCTime _ _ _ ms => Int ms end.

(** A valid date answers within these bounds. *)
Definition valid_time (d : UTCDate) : Prop :=
  match d with
  | InvalidUTCDate => False
  | UTCTime h m s ms =>
      0 <= h < 24 /\ 0 <= m < 60 /\ 0 <= s < 60 /\ 0 <= ms < 1000
  end.

(** [x < 10 ? "0" + x : x], then used as a string. *)
Definition inTimeStampFormat (x : number) : string :=
  if js_lt x (Int 10) then "0" +:+ js_to_string x else js_to_string x.

(** [x < 10 ? "00" + x : x < 100 ? "0" + x : x], then used as a string. *)
Definition milliSecondsFormat (x : number) : string :=
  if js_lt x (Int 10) then "00" +:+ js_to_string x
  else if js_lt x (Int 100) then "0" +:+ js_to_string x
  else js_to_string x.

Definition timeSpanToString (startDate endDate : UTCDate) : string :=
  let minutesOnTheClock := js_sub (getUTCMinutes endDate) (getUTCMinutes startDate) in
  let hoursOnTheClock := js_sub (getUTCHours endDate) (getUTCHours startDate) in
  let milliSecondsOnTheClock :=
    js_sub (getUTCMilliseconds endDate) (getUTCMilliseconds startDate) in
  let secondsOnTheClock := js_sub (getUTCSeconds endDate) (getUTCSeconds startDate) in
  let hoursInTimeStampFormat := inTimeStampFormat hoursOnTheClock in
  let mitutesInTimeStampFormat := inTimeStampFormat minutesOnTheClock in
  let milliSecondsInTimeStampFormat := milliSecondsFormat milliSecondsOnTheClock in
  let secondsInTimeStampFormat := inTimeStampFormat secondsOnTheClock in
  hoursInTimeStampFormat +:+ ":" +:+ mitutesInTimeStampFormat +:+ ":"
  +:+ secondsInTimeStampFormat +:+ "." +:+ milliSecondsInTimeStampFormat.

(** The time of day in milliseconds, and a span of [d] milliseconds written
    [HH:mm:ss.sss] digit by digit. *)
Definition ms_of_day (d : UTCDate) : Z :=
  match d with
  | InvalidUTCDate => 0
  | UTCTime h m s ms => ((h * 60 + m) * 60 + s) * 1000 + ms
  end.

Definition digit (n : Z) : string :=
  String (Ascii.ascii_of_nat (48 + Z.to_nat n)) "".

Definition two_digits (n : Z) : string := digit (n / 10) +:+ digit (n mod 10).

Definition three_digits (n : Z) : string :=
  digit (n / 100) +:+ digit (n / 10 mod 10) +:+ digit (n mod 10).

Definition span_string (d : Z) : string :=
  two_digits (d / 3600000) +:+ ":" +:+ two_digits (d / 60000 mod 60) +:+ ":"
  +:+ two_digits (d / 1000 mod 60) +:+ "." +:+ three_digits (d mod 1000).

(** No getter of [endDate] answers less than the same getter of
    [startDate]. *)
Definition fieldwise_le (startDate endDate : UTCDate) : Prop :=
  match startDate, endDate with
  | UTCTime h m s ms, UTCTime h' m' s' ms' =>
      h <= h' /\ m <= m' /\ s <= s' /\ ms <= ms'
  | _, _ => False
  end.

(** A node with its array reversed, the mirror image of a tree, and two
    states of one object that differ at most by the order of its array. *)
Definition reverse_node (nd : node) : node :=
  MkNode (payload nd) (@rev nat <$> children nd).

Fixpoint mirror (t : tree) : tree :=
  match t with
  | Tree id ks => Tree id (rev (map mirror ks))
  end.

Definition same_object (o o' : option node) : Prop :=
  match o, o' with
  | Some nd, Some nd' =>
      payload nd' = payload nd
      /\ match children nd, children nd' with
         | Some cs, Some cs' => cs' ≡ₚ cs
         | None, None => True
         | _, _ => False
         end
  | None, None => True
  | _, _ => False
  end.

(** The plain alternation of two lists: one of each in turn, and then what
    is left of the longer. *)
Fixpoint interleave (a b : list Z) : list Z :=
  match a, b with
  | x :: a', y :: b' => x :: y :: interleave a' b'
  | [], _ => b
  | _, [] => a
  end.

(** ** angleBetweenClockHands *)

(** The numbers of this function are not all integers. They are taken as
    what they are in JavaScript, binary64 floating-point numbers, with the
    operations of [PrimFloat] (IEEE 754, rounding to nearest even). An integer
    becomes the float of the same value, exactly below 2^53. *)
Fixpoint float_of_pos (p : positive) : float :=
  match p with
  | xH => 1%float
  | xO q => (2 * float_of_pos q)%float
  | xI q => (2 * float_of_pos q + 1)%float
  end.

Definition float_of_Z (z : Z) : float :=
  match z with
  | Z0 => 0%float
  | Zpos p => float_of_pos p
  | Zneg p => (- float_of_pos p)%float
  end.

Definition to_float (n : number) : float :=
  match n with
  | Int z => float_of_Z z
  | NaN => nan
  end.

(** [Math.PI], the binary64 number nearest to pi. *)
Definition Math_PI : float := 0x1.921fb54442d18p+1%float.

Definition Math_abs (x : float) : float := abs x.

(** [Math.min(a, b)] on floats: NaN when an argument is NaN, and -0 below
    +0. *)
Definition Math_min_float (a b : float) : float :=
  if is_nan a || is_nan b then nan
  else if (a <? b)%float then a
  else if (b <? a)%float then b
  else if (1 / a <? 0)%float then a
  else b.

Definition angleBetweenClockHands (date : UTCDate) : float :=
  let halfHoursOfDay := 12%float in
  let angleInOneHourOnClock := 30%float in
  let angleInOneMinuteOnClock := 6%float in
  let thirtyDegrees := 30%float in
  let sixtyDegrees := 60%float in
  let oneHundredEightyDegrees := 180%float in
  let hoursOnTheClock :=
    if (to_float (getUTCHours date) <? halfHoursOfDay)%float
    then to_float (getUTCHours date)
    else (to_float (getUTCHours date) - halfHoursOfDay)%float in
  let minutesOnTheClock := to_float (getUTCMinutes date) in
  let angleBetweenHandsInSimpleFormat :=
    (Math_abs (hoursOnTheClock * angleInOneHourOnClock
               - minutesOnTheClock * angleInOneMinuteOnClock
               + minutesOnTheClock / sixtyDegrees * thirtyDegrees)
     * Math_PI / oneHundredEightyDegrees)%float in
  Math_min_float angleBetweenHandsInSimpleFormat
                 (2 * Math_PI - angleBetweenHandsInSimpleFormat)%float.

(** The angle between the hands by the formula |30 h - 5.5 m| degrees, the
    degrees computed without rounding, and then as the code goes on. *)
Definition clock_angle_formula (h m : Z) : float :=
  let degrees := (float_of_Z (Z.abs (60 * (h mod 12) - 11 * m)) / 2)%float in
  let angle := (degrees * Math_PI / 180)%float in
  Math_min_float angle (2 * Math_PI - angle)%float.

(** * Properties *)

(** ** Consumers *)

Section ConsumerFacts.
Context {W V St : Type}.
Variable next : St -> W -> IterResult V * St * W.

Lemma pulls_app (n m : nat) (s : St) (w : W) :
  pulls next (n + m) s w =
  let '(rs1, s1, w1) := pulls next n s w in
  let '(rs2, s2, w2) := pulls next m s1 w1 in
  (rs1 ++ rs2, s2, w2).
Proof.
  revert s w. induction n as [|n IH]; intros s w; simpl.
  - by destruct (pulls next m s w) as [[rs2 s2] w2].
  - destruct (next s w) as [[r s1] w1]. rewrite IH.
    destruct (pulls next n s1 w1) as [[rs1 s2] w2].
    by destruct (pulls next m s2 w2) as [[rs2 s3] w3].
Qed.

Lemma pulls_results_S (n : nat) (s : St) (w : W) :
  (pulls next (S n) s w).1.1 =
  (next s w).1.1 :: (pulls next n (next s w).1.2 (next s w).2).1.1.
Proof.
  cbn [pulls]. destruct (next s w) as [[r s1] w1]. cbn [fst snd].
  by destruct (pulls next n s1 w1) as [[rs s2] w2].
Qed.

Lemma consume_mono (fuel fuel' : nat) (s : St) (w : W) res :
  consume next fuel s w = Some res ->
  (fuel <= fuel')%nat ->
  consume next fuel' s w = Some res.
Proof.
  revert fuel' s w res.
  induction fuel as [|fuel IH]; intros fuel' s w res Hc Hle; [done|].
  destruct fuel' as [|fuel']; [lia|]. simpl in *.
  destruct (next s w) as [[r s1] w1]. destruct (done r); [done|].
  destruct (consume next fuel s1 w1) as [[[vs s2] w2]|] eqn:E; [|done].
  rewrite (IH fuel' s1 w1 _ E); [done | lia].
Qed.

Lemma consume_yield (fuel : nat) (s s1 : St) (w w1 : W) v :
  next s w = (yielded v, s1, w1) ->
  consume next (S fuel) s w = prepend [v] (consume next fuel s1 w1).
Proof.
  intros Hn. cbn [consume]. rewrite Hn. cbn [done yielded value].
  by destruct (consume next fuel s1 w1) as [[[vs s2] w2]|].
Qed.

Lemma consume_finish (fuel : nat) (s s1 : St) (w w1 : W) :
  next s w = (finished, s1, w1) ->
  consume next (S fuel) s w = Some ([], s1, w1).
Proof. intros Hn. cbn [consume]. by rewrite Hn. Qed.

(** If [n] calls yield the values [vs] and the call after them answers
    [done], a consumer with [S n] calls of fuel collects [vs]. *)
Lemma consume_of_pulls (n : nat) (s s1 s2 : St) (w w1 w2 : W) vs :
  pulls next n s w = (map yielded vs, s1, w1) ->
  next s1 w1 = (finished, s2, w2) ->
  consume next (S n) s w = Some (vs, s2, w2).
Proof.
  revert s w vs. induction n as [|n IH]; intros s w vs Hp Hn.
  - cbn [pulls] in Hp. destruct vs; [|done].
    injection Hp as -> ->. by apply consume_finish.
  - cbn [pulls] in Hp.
    destruct (next s w) as [[r s'] w'] eqn:E.
    destruct (pulls next n s' w') as [[rs s''] w''] eqn:E'.
    destruct vs as [|v vs]; [done|].
    injection Hp as -> -> -> ->.
    rewrite (consume_yield _ _ _ _ _ _ E).
    by rewrite (IH s' w' vs) by (by rewrite ?E').
Qed.

(** A step that is over stays over: the answers from there on. *)
Lemma pulls_stuck (s : St) (k : nat) (w : W) :
  (forall w', next s w' = (finished, s, w')) ->
  pulls next k s w = (replicate k finished, s, w).
Proof.
  intros Hs. induction k as [|k IH]; simpl; [done|].
  by rewrite Hs, IH.
Qed.
End ConsumerFacts.

Ltac open_generator g :=
  unfold pull, collect; cbn [gstate ginit gnext g].

(** ** isLeapYear *)

Lemma rem_zero_divide (y k : Z) : k <> 0 -> (Z.rem y k =? 0) = true <-> (k | y).
Proof. intros Hk. rewrite Z.eqb_eq. by apply Z.rem_divide. Qed.

(** C9. For every date, [isLeapYear] answers true exactly when the full year
    is a multiple of 4 and not of 100, or is a multiple of 400; the year 1900
    gives false and the year 2000 gives true. An invalid date, whose year is
    NaN, gives false. *)
Theorem isLeapYear_gregorian :
  (forall date : Date,
      isLeapYear date = true <->
      (divisible 4 (getFullYear date) /\ ~ divisible 100 (getFullYear date))
      \/ divisible 400 (getFullYear date))
  /\ isLeapYear (LocalDate 1900 1 1) = false
  /\ isLeapYear (LocalDate 2000 1 1) = true.
Proof.
  split; [|done].
  intros [|y m d]; unfold isLeapYear; simpl.
  - split; [done | tauto].
  - rewrite orb_true_iff, andb_true_iff, negb_true_iff.
    rewrite <- not_true_iff_false.
    rewrite !rem_zero_divide by lia. tauto.
Qed.

(** ** getFibonacciSequence *)

Lemma fibs_lookup (k j : nat) : (j < k)%nat -> fibs k !! j = Some (Int (fib j)).
Proof.
  intros Hj. unfold fibs. rewrite list_lookup_fmap, lookup_seq_lt by done.
  done.
Qed.

Lemma fibs_snoc (k : nat) : fibs (S k) = fibs k ++ [Int (fib k)].
Proof. unfold fibs. by rewrite seq_S, map_app. Qed.

Lemma length_fibs (k : nat) : length (fibs k) = k.
Proof. unfold fibs. by rewrite length_map, length_seq. Qed.

(** Once the array holds the first [k >= 2] terms, the call with index [k]
    pushes the next term and returns it. *)
Lemma getNextValues_push (k : nat) :
  getNextValues (fibs (S (S k))) (Z.of_nat (S (S k))) =
  (Some (Int (fib (S (S k)))), fibs (S (S (S k)))).
Proof.
  unfold getNextValues, array_length, array_get.
  rewrite length_fibs, Z.leb_refl.
  rewrite !(proj2 (Z.ltb_ge _ 0)) by lia.
  replace (Z.to_nat (Z.of_nat (S (S k)) - 2)) with k by lia.
  replace (Z.to_nat (Z.of_nat (S (S k)) - 1)) with (S k) by lia.
  rewrite Nat2Z.id, !fibs_lookup by lia.
  assert (Hrec : fib (S (S k)) = fib (S k) + fib k) by done.
  unfold js_add. rewrite (Z.add_comm (fib k)), <- Hrec, <- fibs_snoc.
  by rewrite fibs_lookup by lia.
Qed.

Lemma fib_pulls {W : Type} (n k : nat) (w : W) :
  (S (S k) + n <= 39)%nat ->
  pulls fib_next n (fibs (S (S k)), Z.of_nat (S (S k))) w =
  (map (fun j => yielded (Some (Int (fib j)))) (seq (S (S k)) n),
   (fibs (S (S k) + n), Z.of_nat (S (S k) + n)), w).
Proof.
  revert k. induction n as [|n IH]; intros k Hk.
  - by rewrite Nat.add_0_r.
  - cbn [pulls]. unfold fib_next at 1.
    rewrite (proj2 (Z.ltb_lt _ 39)) by lia.
    rewrite getNextValues_push.
    replace (Z.of_nat (S (S k)) + 1) with (Z.of_nat (S (S (S k)))) by lia.
    rewrite IH by lia.
    by replace (S (S (S k)) + n)%nat with (S (S k) + S n)%nat by lia.
Qed.

Lemma fib_pair_spec (n : nat) : fib_pair n = (fib n, fib (S n)).
Proof.
  induction n as [|n IH]; [done|].
  cbn [fib_pair]. rewrite IH.
  change (fib (S (S n))) with (fib (S n) + fib n). by rewrite Z.add_comm.
Qed.

(** Every term the generator yields is a non-negative integer below 2^53,
    where the additions of the code are exact. *)
Lemma fib_safe_integer : Forall (fun n => 0 <= fib n < 2 ^ 53) (seq 0 39).
Proof.
  apply Forall_forall. intros n Hn%elem_of_seq.
  change (fib n) with ((fib n, fib (S n)).1). rewrite <- fib_pair_spec.
  do 39 (destruct n as [|n]; [by vm_compute|]). lia.
Qed.

(** C7. [getFibonacciSequence] yields exactly 39 values, the value of index
    [n] being [fib n] for [n] from 0 to 38, and answers [done] from then on;
    the value of index 10 is 55. *)
Theorem getFibonacciSequence_terms {W : Type} (w : W) :
  (forall k : nat,
      pull getFibonacciSequence (39 + k) w =
      map (fun n => yielded (Some (Int (fib n)))) (seq 0 39)
      ++ replicate k finished)
  /\ collect getFibonacciSequence 40 w =
     Some (map (fun n => Some (Int (fib n))) (seq 0 39), w)
  /\ pull getFibonacciSequence 11 w !! 10%nat = Some (yielded (Some (Int 55))).
Proof.
  assert (Hpre : forall n : nat, (n <= 37)%nat ->
            pulls (@fib_next W) (2 + n) ([Int 0; Int 1], 0) w =
            (map (fun j => yielded (Some (Int (fib j)))) (seq 0 (2 + n)),
             (fibs (2 + n), Z.of_nat (2 + n)), w)).
  { intros n Hn.
    assert (H2 : pulls (@fib_next W) 2 ([Int 0; Int 1], 0) w =
                 ([yielded (Some (Int 0)); yielded (Some (Int 1))],
                  (fibs 2, Z.of_nat 2), w)) by done.
    rewrite pulls_app, H2, (fib_pulls n 0 w) by lia.
    by rewrite (seq_app 2 n 0), map_app. }
  split; [|split].
  - intros k. open_generator @getFibonacciSequence.
    rewrite pulls_app. change 39%nat with (2 + 37)%nat at 1.
    rewrite Hpre by lia.
    by rewrite (pulls_stuck _ (fibs (2 + 37), Z.of_nat (2 + 37))).
  - open_generator @getFibonacciSequence.
    rewrite (consume_of_pulls _ 39 _ (fibs 39, 39) (fibs 39, 39) w w w
               (map (fun n => Some (Int (fib n))) (seq 0 39))); [done| |done].
    change 39%nat with (2 + 37)%nat. rewrite (Hpre 37%nat) by lia.
    by rewrite map_map.
  - open_generator @getFibonacciSequence.
    change 11%nat with (2 + 9)%nat. by rewrite Hpre by lia.
Qed.

(** ** get99BottlesOfBeer *)

(** C10. [get99BottlesOfBeer] yields exactly 200 strings and answers [done]
    from then on: for each count from 99 down to 1 the verse line and the
    take-down line, with [1 bottle] in the singular and [no more bottles] in
    the last take-down line, and then the two closing lines. *)
Theorem get99BottlesOfBeer_song {W : Type} (w : W) :
  (forall k : nat,
      pull get99BottlesOfBeer (200 + k) w =
      map (fun line => yielded (Some line)) song ++ replicate k finished)
  /\ collect get99BottlesOfBeer 201 w = Some (map Some song, w)
  /\ length song = 200%nat
  /\ song !! 0%nat = Some "99 bottles of beer on the wall, 99 bottles of beer."
  /\ song !! 1%nat =
     Some "Take one down and pass it around, 98 bottles of beer on the wall."
  /\ song !! 196%nat = Some "1 bottle of beer on the wall, 1 bottle of beer."
  /\ song !! 197%nat =
     Some "Take one down and pass it around, no more bottles of beer on the wall."
  /\ song !! 198%nat =
     Some "No more bottles of beer on the wall, no more bottles of beer."
  /\ song !! 199%nat =
     Some "Go to the store and buy some more, 99 bottles of beer on the wall.".
Proof.
  assert (H200 : pulls (@bottles_next W) 200 (BottlesLoop 99) w =
                 (map yielded (map Some song), BottlesGo, w))
    by (by vm_compute).
  split; [|split; [|repeat split; by vm_compute]].
  - intros k. open_generator @get99BottlesOfBeer.
    rewrite pulls_app, H200, map_map.
    destruct k as [|k]; [by rewrite app_nil_r|].
    cbn [pulls bottles_next]. by rewrite (pulls_stuck _ BottlesEnd).
  - open_generator @get99BottlesOfBeer.
    by rewrite (consume_of_pulls _ 200 _ _ BottlesEnd w w w _ H200).
Qed.

(** ** mergeSortedSequences *)

Section MergeFacts.
Context {W St1 St2 : Type}.
Variable next1 : St1 -> W -> IterResult number * St1 * W.
Variable next2 : St2 -> W -> IterResult number * St2 * W.

(** No path through the body reaches its end: every answer is a [yield]. *)
Lemma merge_next_not_done (s : merge_state St1 St2) (w : W) :
  done (merge_next next1 next2 s w).1.1 = false.
Proof.
  destruct s as [seq1 seq2|s1 s2 seq1 seq2]; simpl; [|done].
  destruct (next1 seq1 w) as [[r1 seq1'] w1].
  destruct (next2 seq2 w1) as [[r2 seq2'] w2].
  by destruct (value r1), (value r2).
Qed.

Lemma merge_consume_none (fuel : nat) (s : merge_state St1 St2) (w : W) :
  consume (merge_next next1 next2) fuel s w = None.
Proof.
  revert s w. induction fuel as [|fuel IH]; intros s w; [done|].
  cbn [consume]. pose proof (merge_next_not_done s w) as Hd.
  destruct (merge_next next1 next2 s w) as [[r s'] w']. simpl in Hd.
  by rewrite Hd, IH.
Qed.
End MergeFacts.

(** Two finite sources: the rounds, and then [undefined] at every call. *)
Lemma merge_lists_pulls {W : Type} (l1 l2 : list number) (k : nat) (w : W) :
  pulls (merge_next list_next list_next) (length l1 + length l2 + k)
        (MergeLoop l1 l2) w =
  (map (fun x => yielded (Some x)) (rounds l1 l2) ++ replicate k (yielded None),
   MergeLoop [] [], w).
Proof.
  revert l2. induction l1 as [|x l1 IH]; intros l2.
  - induction l2 as [|y l2 IH2].
    + induction k as [|k IHk]; [done|].
      simpl in *. by rewrite IHk.
    + cbn [length Nat.add] in *.
      cbn [pulls]; simpl merge_next; cbv beta iota. by rewrite IH2.
  - destruct l2 as [|y l2].
    + specialize (IH []). cbn [length Nat.add] in *.
      cbn [pulls]; simpl merge_next; cbv beta iota. rewrite IH. by destruct l1.
    + replace (length (x :: l1) + length (y :: l2) + k)%nat
        with (S (S (length l1 + length l2 + k))) by (simpl; lia).
      do 2 (cbn [pulls]; simpl merge_next; cbv beta iota). by rewrite IH.
Qed.

(** C1. The code against the claim: merged from the finite sources [1] and
    [2], the sequence does not end. After the values of both sources every
    further call answers [{ value: undefined, done: false }], for all finite
    sources, and a consumer that waits for [done] never gets it. *)
Theorem mergeSortedSequences_never_exhausted :
  pull (mergeSortedSequences (list_source [Int 1]) (list_source [Int 2])) 5 tt =
    [ yielded (Some (Int 1)); yielded (Some (Int 2));
      yielded None; yielded None; yielded None ]
  /\ (forall (W : Type) (l1 l2 : list number) (k : nat) (w : W),
         pull (mergeSortedSequences (list_source l1) (list_source l2))
              (length l1 + length l2 + k) w =
         map (fun x => yielded (Some x)) (rounds l1 l2)
         ++ replicate k (yielded None))
  /\ (forall (W : Type) (l1 l2 : list number) (fuel : nat) (w : W),
         collect (mergeSortedSequences (list_source l1) (list_source l2)) fuel w
         = None).
Proof.
  split; [done|split].
  - intros W l1 l2 k w. open_generator @mergeSortedSequences.
    open_generator @list_source. by rewrite merge_lists_pulls.
  - intros W l1 l2 fuel w. open_generator @mergeSortedSequences.
    by rewrite merge_consume_none.
Qed.

(** C2. The code against the claim: merged from the ascending sources [1, 2]
    and [3, 4], the sequence starts 1, 3, 2, 4, which is not ascending; the
    same with the endless ascending sources 1, 2, 3, ... and 10, 20, 30, ...,
    which start 1, 10, 2, 20. *)
Theorem mergeSortedSequences_not_ascending :
  ascending [Some (Int 1); Some (Int 2)] = true
  /\ ascending [Some (Int 3); Some (Int 4)] = true
  /\ values_of
       (pull (mergeSortedSequences (list_source [Int 1; Int 2])
                                   (list_source [Int 3; Int 4])) 4 tt) =
     [Some (Int 1); Some (Int 3); Some (Int 2); Some (Int 4)]
  /\ ascending [Some (Int 1); Some (Int 3); Some (Int 2); Some (Int 4)] = false
  /\ values_of
       (pull (mergeSortedSequences (count_source 1 1) (count_source 10 10)) 4 tt) =
     [Some (Int 1); Some (Int 10); Some (Int 2); Some (Int 20)]
  /\ ascending [Some (Int 1); Some (Int 10); Some (Int 2); Some (Int 20)] = false.
Proof. by repeat split. Qed.

(** The two examples of the documentation, to any length. *)
Lemma merge_odds_evens {W : Type} (n : nat) (m : Z) (w : W) :
  (pulls (merge_next (count_next 2) (count_next 2)) n
         (MergeLoop (2 * m + 1) (2 * m + 2)) w).1.1 =
  map (fun i => yielded (Some (Int (2 * m + 1 + Z.of_nat i)))) (seq 0 n).
Proof.
  revert m.
  induction n as [n IH] using (well_founded_induction lt_wf); intros m.
  destruct n as [|[|n]]; [done| |].
  - rewrite pulls_results_S.
    cbn [merge_next count_next value yielded fst snd Math_min pulls map seq].
    rewrite Z.min_l by lia. do 4 f_equal. lia.
  - rewrite !pulls_results_S.
    cbn [merge_next count_next value yielded fst snd Math_min Math_max].
    replace (2 * m + 1 + 2) with (2 * (m + 1) + 1) by lia.
    replace (2 * m + 2 + 2) with (2 * (m + 1) + 2) by lia.
    rewrite (IH n) by lia.
    rewrite Z.min_l, Z.max_r by lia.
    cbn [map seq]. rewrite <- !seq_shift, !map_map.
    f_equal; [|f_equal].
    + do 3 f_equal. lia.
    + do 3 f_equal. lia.
    + apply map_ext. intros i. do 3 f_equal. lia.
Qed.

Lemma merge_exhausted_evens {W : Type} (n : nat) (j : Z) (w : W) :
  (pulls (merge_next list_next (count_next 2)) n (MergeLoop [] j) w).1.1 =
  map (fun i => yielded (Some (Int (j + 2 * Z.of_nat i)))) (seq 0 n).
Proof.
  revert j. induction n as [|n IH]; intros j; [done|].
  rewrite pulls_results_S.
  cbn [merge_next list_next count_next value yielded finished fst snd].
  rewrite IH. cbn [map seq]. rewrite <- seq_shift, map_map.
  f_equal.
  - do 3 f_equal. lia.
  - apply map_ext. intros i. do 3 f_equal. lia.
Qed.

(** C6. One round of [mergeSortedSequences] calls [.next()] once on each
    source; when both give a value it yields the smaller and then the larger
    without a further call, and when exactly one is exhausted it yields the
    value of the other alone. Merging 1, 3, 5, ... with 2, 4, 6, ... yields
    1, 2, 3, 4, ..., and merging [0] with 2, 4, 6, ... yields 0, 2, 4, 6, .... *)
Theorem mergeSortedSequences_rounds :
  (forall (W St1 St2 : Type)
          (next1 : St1 -> W -> IterResult number * St1 * W)
          (next2 : St2 -> W -> IterResult number * St2 * W)
          (seq1 : St1) (seq2 : St2) (w : W),
      let '(r1, seq1', w1) := next1 seq1 w in
      let '(r2, seq2', w2) := next2 seq2 w1 in
      match value r1, value r2 with
      | Some s1, Some s2 =>
          pulls (merge_next next1 next2) 2 (MergeLoop seq1 seq2) w =
          ([yielded (Some (Math_min s1 s2)); yielded (Some (Math_max s1 s2))],
           MergeLoop seq1' seq2', w2)
      | Some s1, None =>
          pulls (merge_next next1 next2) 1 (MergeLoop seq1 seq2) w =
          ([yielded (Some s1)], MergeLoop seq1' seq2', w2)
      | None, Some s2 =>
          pulls (merge_next next1 next2) 1 (MergeLoop seq1 seq2) w =
          ([yielded (Some s2)], MergeLoop seq1' seq2', w2)
      | None, None => True
      end)
  /\ (forall a b : Z,
         Math_min (Int a) (Int b) = Int (Z.min a b)
         /\ Math_max (Int a) (Int b) = Int (Z.max a b)
         /\ Z.min a b <= Z.max a b)
  /\ (forall n : nat,
         pull (mergeSortedSequences (count_source 1 2) (count_source 2 2)) n tt =
         map (fun i => yielded (Some (Int (Z.of_nat i + 1)))) (seq 0 n))
  /\ (forall n : nat,
         pull (mergeSortedSequences (list_source [Int 0]) (count_source 2 2)) n tt =
         map (fun i => yielded (Some (Int (2 * Z.of_nat i)))) (seq 0 n)).
Proof.
  split; [|split; [|split]].
  - intros W St1 St2 next1 next2 seq1 seq2 w.
    destruct (next1 seq1 w) as [[r1 seq1'] w1] eqn:E1.
    destruct (next2 seq2 w1) as [[r2 seq2'] w2] eqn:E2.
    destruct (value r1) as [s1|] eqn:V1, (value r2) as [s2|] eqn:V2;
      cbn [pulls merge_next]; rewrite ?E1, ?E2, ?V1, ?V2; done.
  - intros a b. repeat split; lia.
  - intros n. open_generator @mergeSortedSequences.
    open_generator @count_source.
    etrans; [exact (merge_odds_evens n 0 tt)|].
    apply map_ext. intros i. do 3 f_equal. lia.
  - intros n. open_generator @mergeSortedSequences.
    open_generator @count_source. open_generator @list_source.
    destruct n as [|[|n]]; [done|done|].
    rewrite !pulls_results_S.
    cbn [merge_next list_next count_next value yielded finished fst snd
         Math_min Math_max].
    rewrite (merge_exhausted_evens n (2 + 2) tt).
    cbn [map seq]. rewrite <- !seq_shift, !map_map. do 2 f_equal.
    apply map_ext. intros i. do 3 f_equal. lia.
Qed.

(** ** Trees *)

Lemma prepend_nil {V St W : Type} (o : option (list (option V) * St * W)) :
  prepend [] o = o.
Proof. by destruct o as [[[vs s] w]|]. Qed.

Lemma prepend_app {V St W : Type} (vs1 vs2 : list (option V))
    (o : option (list (option V) * St * W)) :
  prepend vs1 (prepend vs2 o) = prepend (vs1 ++ vs2) o.
Proof. destruct o as [[[vs s] w]|]; [|done]. simpl. by rewrite app_assoc. Qed.

Lemma tree_ind_forall (P : tree -> Prop) :
  (forall id ks, Forall P ks -> P (Tree id ks)) -> forall t, P t.
Proof.
  intros HP. fix IH 1. intros [id ks]. apply HP.
  induction ks as [|k ks IHks]; constructor; [apply IH | exact IHks].
Qed.

Lemma holds_inv (h : store) (id : ref) (ks : list tree) :
  holds h (Tree id ks) ->
  exists nd, h !! id = Some nd
             /\ default [] (children nd) = map root ks
             /\ Forall (holds h) ks.
Proof. inversion 1; subst. eauto. Qed.

Lemma root_in_preorder (t : tree) : root t ∈ preorder t.
Proof. destruct t. simpl. left. Qed.

Lemma elem_of_flat_map_preorder (r : ref) (ts : list tree) :
  r ∈ flat_map preorder ts <-> exists t, t ∈ ts /\ r ∈ preorder t.
Proof.
  rewrite list_elem_of_In, in_flat_map. setoid_rewrite list_elem_of_In. done.
Qed.

Lemma node_of_preorder (r : ref) (t : tree) : node_of r t <-> r ∈ preorder t.
Proof.
  revert r. induction t as [id ks IH] using tree_ind_forall; intros r.
  rewrite Forall_forall in IH. simpl. rewrite elem_of_cons.
  rewrite elem_of_flat_map_preorder. split.
  - inversion 1 as [|? ? k Hk Hr]; subst; [by left|].
    right. exists k. split; [done|]. by apply IH.
  - intros [->|(k & Hk & Hr)]; [constructor|].
    eapply node_below; [done|]. by apply IH.
Qed.

(** A store that agrees with [h] on the nodes of [t] holds [t] as well. *)
Lemma holds_frame (h h' : store) (t : tree) :
  holds h t ->
  (forall r, r ∈ preorder t -> h' !! r = h !! r) ->
  holds h' t.
Proof.
  induction t as [id ks IH] using tree_ind_forall. intros Hh Hagree.
  apply holds_inv in Hh as (nd & Hnd & Hcs & Hks).
  apply (holds_node h' id ks nd); [|done|].
  - rewrite Hagree; [done | simpl; left].
  - rewrite Forall_forall in IH, Hks. apply Forall_forall. intros k Hk.
    apply IH; [done | by apply Hks |].
    intros r Hr. apply Hagree. simpl. right.
    apply elem_of_flat_map_preorder. eauto.
Qed.

Lemma fsize_cons (id : ref) (ks rest : list tree) :
  fsize (Tree id ks :: rest) = S (fsize (ks ++ rest)).
Proof. unfold fsize. rewrite map_app, list_sum_app. simpl. lia. Qed.

Lemma fsize_nil_inv (ts : list tree) : fsize ts = O -> ts = [].
Proof. destruct ts as [|[id ks] rest]; [done|]. by rewrite fsize_cons. Qed.

(** ** depthTraversalTree *)

Lemma array_pop_snoc {A : Type} (l : list A) (x : A) :
  array_pop (l ++ [x]) = Some (x, l).
Proof. unfold array_pop. rewrite rev_app_distr. simpl. by rewrite rev_involutive. Qed.

Lemma reverse_children_other (h : store) (r r' : ref) :
  r <> r' -> reverse_children h r !! r' = h !! r'.
Proof. intros Hne. unfold reverse_children. by rewrite lookup_alter_ne. Qed.

(** What the body does between the [yield] of a node of a held tree and the
    next loop test. *)
Lemma dfs_resume_holds (h : store) (id : ref) (ks : list tree) (nodes : list ref) :
  holds h (Tree id ks) ->
  dfs_resume id nodes h = (nodes ++ rev (map root ks), reverse_children h id).
Proof.
  intros (nd & Hnd & Hcs & _)%holds_inv.
  unfold dfs_resume, get_children. rewrite Hnd. simpl.
  destruct nd as [p [cs|]]; simpl in *.
  - by rewrite Hcs.
  - rewrite <- Hcs. simpl. rewrite app_nil_r. f_equal.
    unfold reverse_children. symmetry. apply map_eq. intros r.
    rewrite lookup_alter. case_decide as Hr; [|done].
    subst r. by rewrite Hnd.
Qed.

Lemma dfs_consume_yielded (fuel : nat) (curr : ref) (nodes : list ref) (h : store) :
  consume dfs_next fuel (DfsYielded curr nodes) h =
  consume dfs_next fuel (DfsLoop (dfs_resume curr nodes h).1)
          (dfs_resume curr nodes h).2.
Proof.
  destruct fuel as [|fuel]; [done|]. cbn [consume dfs_next].
  by destruct (dfs_resume curr nodes h) as [nodes' h'].
Qed.

(** The work list holds the roots of a forest, the next one to visit last:
    the traversal yields the forest in pre-order and reverses the array of
    each node it has passed. *)
Lemma dfs_forest (n : nat) (ts : list tree) (h : store) :
  fsize ts = n ->
  Forall (holds h) ts ->
  NoDup (flat_map preorder ts) ->
  consume dfs_next (S n) (DfsLoop (rev (map root ts))) h =
  Some (map Some (flat_map preorder ts), DfsDone,
        foldl reverse_children h (flat_map preorder ts)).
Proof.
  revert ts h. induction n as [|n IH]; intros ts h Hn Hh Hnd.
  - apply fsize_nil_inv in Hn as ->. done.
  - destruct ts as [|[id ks] rest]; [done|].
    rewrite fsize_cons in Hn. injection Hn as Hn.
    apply Forall_cons in Hh as [Ht Hrest].
    cbn [flat_map preorder] in *. cbn [map root rev].
    rewrite <- app_comm_cons in Hnd. apply NoDup_cons in Hnd as [Hid Hnd].
    rewrite <- flat_map_app in Hid, Hnd.
    rewrite (consume_yield _ _ _ (DfsYielded id (rev (map root rest))) h h (Some id))
      by (cbn [dfs_next]; unfold dfs_loop; by rewrite array_pop_snoc).
    rewrite dfs_consume_yielded, (dfs_resume_holds h id ks) by done.
    cbn [fst snd]. rewrite <- rev_app_distr, <- map_app.
    rewrite (IH (ks ++ rest)); [| done | | done].
    + cbn [prepend fmap option_fmap option_map fst snd app map foldl].
      by rewrite flat_map_app.
    + apply holds_inv in Ht as (nd & _ & _ & Hks).
      apply Forall_forall. intros t Ht.
      apply (holds_frame h).
      * assert (Hall : Forall (holds h) (ks ++ rest)) by by apply Forall_app.
        rewrite Forall_forall in Hall. by apply Hall.
      * intros r Hr. apply reverse_children_other. intros ->.
        apply Hid, elem_of_flat_map_preorder. eauto.
Qed.

Lemma example_store_holds : holds example_store example_tree.
Proof.
  repeat first [ apply Forall_nil_2
               | apply Forall_cons_2
               | eapply holds_node; [reflexivity | reflexivity | ] ].
Qed.

(** C4. On a tree of distinct nodes [depthTraversalTree] yields the nodes in
    pre-order (a node, then the subtrees of its children one after the other
    in the order of the [children] array), each node of the tree once and
    nothing else, and then ends; on the tree of the documentation the order
    is node1, node2, ..., node8. *)
Theorem depthTraversalTree_preorder :
  (forall (h : store) (t : tree),
      holds h t ->
      NoDup (preorder t) ->
      exists (vs : list nat) (h' : store),
        collect (depthTraversalTree (root t)) (S (tsize t)) h
          = Some (map Some vs, h')
        /\ vs = preorder t
        /\ NoDup vs
        /\ (forall r, r ∈ vs <-> node_of r t))
  /\ (forall id ks, preorder (Tree id ks) = id :: flat_map preorder ks)
  /\ holds example_store example_tree
  /\ fst <$> collect (depthTraversalTree 1) 9 example_store
     = Some [Some 1; Some 2; Some 3; Some 4; Some 5; Some 6; Some 7; Some 8]%nat.
Proof.
  split; [|split; [done|split; [apply example_store_holds|done]]].
  intros h t Ht Hnd.
  exists (preorder t), (foldl reverse_children h (preorder t)).
  split; [|split; [done|split; [done|]]].
  - open_generator depthTraversalTree.
    pose proof (dfs_forest (tsize t) [t] h) as Hf.
    cbn [map rev app flat_map] in Hf. rewrite !app_nil_r in Hf.
    rewrite Hf; [done| | |done].
    + unfold fsize. simpl. lia.
    + by apply Forall_singleton.
  - intros r. symmetry. apply node_of_preorder.
Qed.

Lemma depthTraversalTree_preorder_witness :
  exists (vs : list nat) (h' : store),
    collect (depthTraversalTree (root example_tree)) (S (tsize example_tree))
            example_store = Some (map Some vs, h')
    /\ vs = preorder example_tree
    /\ NoDup vs
    /\ (forall r, r ∈ vs <-> node_of r example_tree).
Proof.
  apply (proj1 depthTraversalTree_preorder example_store example_tree).
  - repeat first [ apply Forall_nil_2
                 | apply Forall_cons_2
                 | eapply holds_node; [reflexivity | reflexivity | ] ].
  - apply (bool_decide_unpack _). vm_compute. reflexivity.
Defined.

(** ** breadthTraversalTree *)

Lemma flevel_0 (ts : list tree) : flevel 0 ts = map root ts.
Proof.
  unfold flevel. induction ts as [|[id ks] ts IH]; [done|].
  cbn [flat_map level map root app]. f_equal. exact IH.
Qed.

Lemma flevel_S (d : nat) (ts : list tree) :
  flevel (S d) ts = flevel d (flat_map subtrees ts).
Proof.
  unfold flevel. induction ts as [|[id ks] ts IH]; [done|].
  cbn [flat_map level subtrees]. rewrite flat_map_app. f_equal. exact IH.
Qed.

Lemma fheight_S (ts : list tree) :
  ts <> [] -> fheight ts = S (fheight (flat_map subtrees ts)).
Proof.
  unfold fheight. induction ts as [|[id ks] ts IH]; [done|]. intros _.
  change (list_max (map height (Tree id ks :: ts)))
    with (Nat.max (S (list_max (map height ks))) (list_max (map height ts))).
  change (flat_map subtrees (Tree id ks :: ts))
    with (ks ++ flat_map subtrees ts).
  rewrite map_app, list_max_app.
  destruct ts as [|t ts].
  - simpl. lia.
  - rewrite IH by done. lia.
Qed.

Lemma flat_map_seq_shift {A : Type} (f : nat -> list A) (a n : nat) :
  flat_map f (seq (S a) n) = flat_map (fun d => f (S d)) (seq a n).
Proof.
  revert a. induction n as [|n IH]; intros a; [done|].
  simpl. by rewrite IH.
Qed.

Lemma forder_step (ts : list tree) :
  ts <> [] -> forder ts = map root ts ++ forder (flat_map subtrees ts).
Proof.
  intros Hne. unfold forder. rewrite (fheight_S ts Hne).
  cbn [seq flat_map]. rewrite flevel_0, flat_map_seq_shift. f_equal.
  apply flat_map_ext. intros d. apply flevel_S.
Qed.

Lemma levelorder_forder (t : tree) : levelorder t = forder [t].
Proof.
  unfold levelorder, forder, fheight, flevel. simpl.
  rewrite Nat.max_0_r. apply flat_map_ext. intros d. by rewrite app_nil_r.
Qed.

Lemma fsize_subtrees (ts : list tree) :
  fsize ts = (length ts + fsize (flat_map subtrees ts))%nat.
Proof.
  induction ts as [|[id ks] ts IH]; [done|].
  rewrite fsize_cons. cbn [flat_map subtrees length].
  unfold fsize in *. rewrite !map_app, !list_sum_app in *. lia.
Qed.

Lemma holds_subtrees (h : store) (ts : list tree) :
  Forall (holds h) ts -> Forall (holds h) (flat_map subtrees ts).
Proof.
  induction 1 as [|[id ks] ts Ht Hts IH]; [done|].
  cbn [flat_map subtrees]. apply Forall_app. split; [|done].
  by apply holds_inv in Ht as (nd & _ & _ & Hks).
Qed.

(** The store is only read. *)
Lemma bfs_next_store (s : bfs_state) (h : store) : (bfs_next s h).2 = h.
Proof.
  destruct s as [nodes idx|nd nodes idx|]; simpl; [| |done];
    unfold bfs_loop; by destruct (_ !! idx).
Qed.

Lemma bfs_pulls_store (n : nat) (s : bfs_state) (h : store) :
  (pulls bfs_next n s h).2 = h.
Proof.
  revert s. induction n as [|n IH]; intros s; [done|].
  cbn [pulls]. pose proof (bfs_next_store s h) as Hs.
  destruct (bfs_next s h) as [[r s1] h1]. simpl in Hs. subst h1.
  specialize (IH s1). by destruct (pulls bfs_next n s1 h) as [[rs s2] h2].
Qed.

Lemma bfs_resume_holds (h : store) (id : nat) (ks : list tree) (nodes : list nat) :
  holds h (Tree id ks) ->
  bfs_resume id nodes h = nodes ++ map root ks.
Proof.
  intros (nd & Hnd & Hcs & _)%holds_inv.
  unfold bfs_resume, get_children. rewrite Hnd. simpl.
  destruct nd as [p [cs|]]; simpl in *.
  - by rewrite Hcs.
  - by rewrite <- Hcs, app_nil_r.
Qed.

Lemma bfs_consume_yielded (fuel : nat) (nd : nat) (nodes : list nat)
    (idx : nat) (h : store) :
  consume bfs_next fuel (BfsYielded nd nodes idx) h =
  consume bfs_next fuel (BfsLoop (bfs_resume nd nodes h) idx) h.
Proof. by destruct fuel. Qed.

(** The part [q1] of the queue is yielded from left to right while the
    children of its nodes queue up behind what was there. *)
Lemma bfs_level (h : store) (q1 q2 : list tree) (vis : list nat) (fuel : nat) :
  Forall (holds h) q1 ->
  consume bfs_next (length q1 + fuel)
          (BfsLoop (vis ++ map root (q1 ++ q2)) (length vis)) h =
  prepend (map Some (map root q1))
    (consume bfs_next fuel
       (BfsLoop ((vis ++ map root q1) ++ map root (q2 ++ flat_map subtrees q1))
                (length (vis ++ map root q1))) h).
Proof.
  intros Hq1. revert q2 vis.
  induction Hq1 as [|[id ks] q1 Ht Hq1 IH]; intros q2 vis.
  - cbn [length Nat.add map flat_map]. by rewrite prepend_nil, !app_nil_r.
  - cbn [length Nat.add app map root flat_map subtrees].
    rewrite (consume_yield _ _ _
               (BfsYielded id (vis ++ id :: map root (q1 ++ q2)) (S (length vis)))
               h h (Some id)).
    2:{ cbn [bfs_next]. unfold bfs_loop. by rewrite list_lookup_middle. }
    rewrite bfs_consume_yielded, (bfs_resume_holds h id ks) by done.
    replace ((vis ++ id :: map root (q1 ++ q2)) ++ map root ks)
      with ((vis ++ [id]) ++ map root (q1 ++ (q2 ++ ks)))
      by (rewrite !map_app, <- !app_assoc; cbn [app]; by rewrite <- !app_assoc).
    replace (S (length vis)) with (length (vis ++ [id]))
      by (rewrite length_app; simpl; lia).
    rewrite IH, prepend_app. cbn [app].
    rewrite !map_app, !length_app, <- !app_assoc. cbn [app length].
    do 3 f_equal. lia.
Qed.

(** The queue from the index on holds the roots of a forest: the traversal
    yields the forest level by level and ends. *)
Lemma bfs_forest (h : store) (n : nat) (ts : list tree) (vis : list nat) :
  fsize ts = n ->
  Forall (holds h) ts ->
  consume bfs_next (S n) (BfsLoop (vis ++ map root ts) (length vis)) h =
  Some (map Some (forder ts), BfsDone, h).
Proof.
  revert ts vis.
  induction n as [n IH] using (well_founded_induction lt_wf).
  intros ts vis Hn Hts.
  destruct (decide (ts = [])) as [->|Hne].
  - apply consume_finish. cbn [bfs_next map]. unfold bfs_loop.
    rewrite app_nil_r, lookup_ge_None_2; [done | lia].
  - pose proof (fsize_subtrees ts) as Hsz.
    assert (0 < length ts)%nat by (destruct ts; [done | simpl; lia]).
    replace (S n) with (length ts + S (fsize (flat_map subtrees ts)))%nat by lia.
    pose proof (bfs_level h ts [] vis (S (fsize (flat_map subtrees ts))) Hts) as Hl.
    rewrite app_nil_r in Hl. cbn [app] in Hl. rewrite Hl.
    rewrite (IH (fsize (flat_map subtrees ts))); [| lia | done |].
    + cbn [prepend fmap option_fmap option_map fst snd].
      rewrite (forder_step ts) by done. by rewrite map_app.
    + by apply holds_subtrees.
Qed.

Lemma example_store_bfs_holds : holds example_store_bfs example_tree_bfs.
Proof.
  repeat first [ apply Forall_nil_2
               | apply Forall_cons_2
               | eapply holds_node; [reflexivity | reflexivity | ] ].
Qed.

(** Level order lists the same nodes as pre-order. *)
Lemma preorder_forest_split (ts : list tree) :
  flat_map preorder ts ≡ₚ map root ts ++ flat_map preorder (flat_map subtrees ts).
Proof.
  induction ts as [|[id ks] ts IH]; [done|].
  cbn [flat_map preorder map root subtrees app].
  rewrite flat_map_app, IH. constructor.
  by rewrite Permutation_app_swap_app.
Qed.

Lemma forder_preorder (n : nat) (ts : list tree) :
  fsize ts = n -> forder ts ≡ₚ flat_map preorder ts.
Proof.
  revert ts. induction n as [n IH] using (well_founded_induction lt_wf).
  intros ts Hn. destruct (decide (ts = [])) as [->|Hne]; [done|].
  rewrite (forder_step ts Hne), preorder_forest_split.
  apply Permutation_app_head.
  pose proof (fsize_subtrees ts) as Hsz.
  assert (0 < length ts)%nat by (destruct ts; [done | simpl; lia]).
  apply (IH (fsize (flat_map subtrees ts))); [lia | done].
Qed.

(** C5. [breadthTraversalTree] yields the nodes of a tree level by level,
    depth 0 first, each level from left to right in the order of the
    [children] arrays, each node of the tree once and nothing else, and then
    ends, leaving the store as it was; a tree of one node yields its root
    alone. *)
Theorem breadthTraversalTree_levelorder :
  (forall (h : store) (t : tree),
      holds h t ->
      exists vs : list nat,
        collect (breadthTraversalTree (root t)) (S (tsize t)) h
          = Some (map Some vs, h)
        /\ vs = flat_map (fun d => level d t) (seq 0 (height t))
        /\ vs ≡ₚ preorder t
        /\ (forall r, r ∈ vs <-> node_of r t))
  /\ (forall id ks, level 0 (Tree id ks) = [id])
  /\ (forall d id ks, level (S d) (Tree id ks) = flat_map (level d) ks)
  /\ (forall (h : store) (id : nat),
         holds h (Tree id []) ->
         collect (breadthTraversalTree id) 2 h = Some ([Some id], h))
  /\ holds example_store_bfs example_tree_bfs
  /\ collect (breadthTraversalTree 1) 9 example_store_bfs
     = Some ([Some 1; Some 2; Some 3; Some 4; Some 5; Some 6; Some 7; Some 8]%nat,
             example_store_bfs).
Proof.
  assert (Hgen : forall (h : store) (t : tree),
             holds h t ->
             collect (breadthTraversalTree (root t)) (S (tsize t)) h
             = Some (map Some (levelorder t), h)).
  { intros h t Ht. open_generator breadthTraversalTree.
    pose proof (bfs_forest h (tsize t) [t] [] ltac:(unfold fsize; simpl; lia)
                  ltac:(by apply Forall_singleton)) as Hf.
    cbn [map app length] in Hf. rewrite Hf. by rewrite levelorder_forder. }
  assert (Hperm : forall t, levelorder t ≡ₚ preorder t).
  { intros t. rewrite levelorder_forder, (forder_preorder (fsize [t])) by done.
    simpl. by rewrite app_nil_r. }
  split; [|split; [done|split; [done|split; [|split]]]].
  - intros h t Ht. exists (levelorder t).
    split; [by apply Hgen|split; [done|split; [apply Hperm|]]].
    intros r. rewrite (Hperm t). symmetry. apply node_of_preorder.
  - intros h id Ht. apply (Hgen h (Tree id []) Ht).
  - apply example_store_bfs_holds.
  - apply (Hgen example_store_bfs example_tree_bfs example_store_bfs_holds).
Qed.

Lemma breadthTraversalTree_levelorder_witness :
  exists vs : list nat,
    collect (breadthTraversalTree (root example_tree_bfs))
            (S (tsize example_tree_bfs)) example_store_bfs
      = Some (map Some vs, example_store_bfs)
    /\ vs = flat_map (fun d => level d example_tree_bfs)
                     (seq 0 (height example_tree_bfs))
    /\ vs ≡ₚ preorder example_tree_bfs
    /\ (forall r, r ∈ vs <-> node_of r example_tree_bfs).
Proof.
  apply (proj1 breadthTraversalTree_levelorder example_store_bfs example_tree_bfs).
  repeat first [ apply Forall_nil_2
               | apply Forall_cons_2
               | eapply holds_node; [reflexivity | reflexivity | ] ].
Defined.

(** ** The tree after a traversal *)

(** C3. The code against the claim: [depthTraversalTree] over the tree of the
    documentation leaves the [children] array of node1 as [node7, node6,
    node2], where it was [node2, node6, node7], and so for every node that has
    children: the store after the traversal is the store before it with the
    array of each node reversed. [breadthTraversalTree] does not write to the
    store, whatever the number of calls. *)
Theorem depthTraversalTree_reverses_children :
  holds example_store example_tree
  /\ collect (depthTraversalTree 1) 9 example_store
     = Some ([Some 1; Some 2; Some 3; Some 4; Some 5; Some 6; Some 7; Some 8]%nat,
             foldl reverse_children example_store [1; 2; 3; 4; 5; 6; 7; 8]%nat)
  /\ get_children example_store 1 = Some [2; 6; 7]%nat
  /\ get_children (foldl reverse_children example_store [1; 2; 3; 4; 5; 6; 7; 8]%nat) 1
     = Some [7; 6; 2]%nat
  /\ get_children (foldl reverse_children example_store [1; 2; 3; 4; 5; 6; 7; 8]%nat) 2
     = Some [4; 3]%nat
  /\ foldl reverse_children example_store [1; 2; 3; 4; 5; 6; 7; 8]%nat
     <> example_store
  /\ (forall (n : nat) (s : bfs_state) (h : store), (pulls bfs_next n s h).2 = h).
Proof.
  split; [apply example_store_holds|].
  split; [by vm_compute|]. split; [by vm_compute|].
  split; [by vm_compute|]. split; [by vm_compute|].
  split; [|apply bfs_pulls_store].
  intros Heq. apply (f_equal (fun h => get_children h 1%nat)) in Heq.
  by vm_compute in Heq.
Qed.

(** C8. The code against the claim: two generator objects made by
    [depthTraversalTree(node1)] on the tree of the documentation. Consumed
    first, one yields node1, ..., node8; the other, consumed after it, yields
    node1, node7, node8, node6, node2, node4, node5, node3, for it finds the
    arrays reversed by the first, and puts them back as they were. Consumed
    alone, it would have yielded node1, ..., node8. *)
Theorem depthTraversalTree_twice_differs :
  holds example_store example_tree
  /\ collect (depthTraversalTree 1) 9 example_store
     = Some ([Some 1; Some 2; Some 3; Some 4; Some 5; Some 6; Some 7; Some 8]%nat,
             foldl reverse_children example_store [1; 2; 3; 4; 5; 6; 7; 8]%nat)
  /\ collect (depthTraversalTree 1) 9
             (foldl reverse_children example_store [1; 2; 3; 4; 5; 6; 7; 8]%nat)
     = Some ([Some 1; Some 7; Some 8; Some 6; Some 2; Some 4; Some 5; Some 3]%nat,
             example_store).
Proof.
  split; [apply example_store_holds|]. split; by vm_compute.
Qed.


(** * Further properties *)

(** ** getNextValues *)

(** X1. Within the array [getNextValues] reads the stored term and leaves
    the array as it is. *)
Theorem getNextValues_cached (values : list number) (index : Z) :
  0 <= index < array_length values ->
  exists v, values !! Z.to_nat index = Some v
            /\ getNextValues values index = (Some v, values).
Proof.
  unfold array_length. intros [H0 Hlt].
  destruct (lookup_lt_is_Some_2 values (Z.to_nat index) ltac:(lia)) as [v Hv].
  exists v. split; [done|].
  unfold getNextValues, array_length, array_get.
  rewrite (proj2 (Z.leb_gt _ _)) by lia.
  by rewrite (proj2 (Z.ltb_ge _ 0)), Hv by lia.
Qed.

Lemma getNextValues_cached_witness :
  exists v, [Int 0; Int 1; Int 1] !! Z.to_nat 2 = Some v
            /\ getNextValues [Int 0; Int 1; Int 1] 2 = (Some v, [Int 0; Int 1; Int 1]).
Proof.
  apply (getNextValues_cached [Int 0; Int 1; Int 1] 2).
  unfold array_length. simpl. lia.
Defined.

(** X2. [getNextValues] never drops or changes a stored term: the array it
    leaves is the one it got with at most one term pushed, and a term is
    pushed exactly when the index is not within the array. *)
Theorem getNextValues_grows (values : list number) (index : Z) :
  exists pushed : list number,
    (getNextValues values index).2 = values ++ pushed
    /\ (length pushed <= 1)%nat
    /\ (pushed = [] <-> index < array_length values).
Proof.
  unfold getNextValues. cbn [snd].
  destruct (array_length values <=? index) eqn:E.
  - eexists [_]. split; [done|]. split; [done|].
    apply Z.leb_le in E. split; [done | lia].
  - exists []. rewrite app_nil_r. split; [done|]. split; [simpl; lia|].
    apply Z.leb_gt in E. done.
Qed.

(** X3. Asked for an index beyond the first free place, [getNextValues]
    pushes NaN and returns [undefined]: the terms must be asked for in
    order. *)
Theorem getNextValues_beyond_end (values : list number) (index : Z) :
  array_length values < index ->
  getNextValues values index = (None, values ++ [NaN]).
Proof.
  unfold array_length. intros Hlt.
  unfold getNextValues, array_length, array_get.
  rewrite (proj2 (Z.leb_le _ _)) by lia.
  rewrite (proj2 (Z.ltb_ge index 0)) by lia.
  rewrite (lookup_ge_None_2 values (Z.to_nat (index - 1))) by lia.
  rewrite lookup_ge_None_2 by (rewrite length_app; simpl; lia).
  f_equal. f_equal. f_equal. unfold js_add.
  destruct (index - 2 <? 0), (index - 1 <? 0); try done;
    by destruct (values !! Z.to_nat (index - 2)) as [[]|].
Qed.

Lemma getNextValues_beyond_end_witness :
  getNextValues [Int 0; Int 1] 5 = (None, [Int 0; Int 1] ++ [NaN]).
Proof.
  apply (getNextValues_beyond_end [Int 0; Int 1] 5).
  unfold array_length. simpl. lia.
Defined.


(** ** getFibonacciSequence *)

(** X5. Every answer of [getFibonacciSequence] is either the end or an
    integer from 0 to below 2^53: the additions of the code are exact, no
    term is NaN or [undefined]. *)
Theorem getFibonacciSequence_safe_integers {W : Type} (n : nat) (w : W) :
  Forall (fun r => match value r with
                   | Some (Int v) => done r = false /\ 0 <= v < 2 ^ 53
                   | Some NaN => False
                   | None => done r = true
                   end)
         (pull getFibonacciSequence n w).
Proof.
  set (P := fun r : IterResult number =>
              match value r with
              | Some (Int v) => done r = false /\ 0 <= v < 2 ^ 53
              | Some NaN => False
              | None => done r = true
              end).
  assert (H39 : pulls (@fib_next W) (2 + 37) ([Int 0; Int 1], 0) w =
                (map (fun j => yielded (Some (Int (fib j)))) (seq 0 (2 + 37)),
                 (fibs (2 + 37), Z.of_nat (2 + 37)), w)).
  { assert (H2 : pulls (@fib_next W) 2 ([Int 0; Int 1], 0) w =
                 ([yielded (Some (Int 0)); yielded (Some (Int 1))],
                  (fibs 2, Z.of_nat 2), w)) by done.
    rewrite pulls_app, H2, (fib_pulls 37 0 w) by lia.
    by rewrite (seq_app 2 37 0), map_app. }
  assert (Hall : forall k, Forall P (pull getFibonacciSequence (2 + 37 + k) w)).
  { intros k. open_generator @getFibonacciSequence.
    rewrite pulls_app, H39.
    rewrite (pulls_stuck _ (fibs (2 + 37), Z.of_nat (2 + 37))) by done.
    cbn [fst]. apply Forall_app. split.
    - apply Forall_map. eapply Forall_impl; [exact fib_safe_integer|].
      intros j Hj. unfold P. cbn. split; [reflexivity | exact Hj].
    - apply Forall_forall. intros r Hr%elem_of_replicate. by destruct Hr as [-> _]. }
  destruct (decide (n <= 39)%nat) as [Hle|Hgt].
  - specialize (Hall 0%nat). rewrite Nat.add_0_r in Hall.
    revert Hall. open_generator @getFibonacciSequence.
    replace (2 + 37)%nat with (n + (39 - n))%nat by lia.
    rewrite pulls_app.
    destruct (pulls fib_next n _ w) as [[rs1 s1] w1].
    destruct (pulls fib_next (39 - n) s1 w1) as [[rs2 s2] w2].
    cbn [fst]. by intros [? _]%Forall_app.
  - replace n with (2 + 37 + (n - 39))%nat by lia. apply Hall.
Qed.

(** ** timeSpanToString *)

Lemma string_length_app (a b : string) :
  String.length (a +:+ b) = (String.length a + String.length b)%nat.
Proof. induction a as [|c a IH]; [done|]. simpl. by rewrite IH. Qed.

Lemma pretty_negative (x : Z) : x < 0 -> pretty x = "-" +:+ pretty (- x).
Proof. by destruct x. Qed.

(** Below ten the code puts one zero in front, and none from ten on: two
    digits for every number from 0 to 99. *)
Lemma inTimeStampFormat_two_digits (n : Z) :
  0 <= n < 100 -> inTimeStampFormat (Int n) = two_digits n.
Proof.
  intros Hn.
  assert (Hall : forallb (fun k => String.eqb (inTimeStampFormat (Int (Z.of_nat k)))
                                              (two_digits (Z.of_nat k)))
                         (seq 0 100) = true) by (by vm_compute).
  rewrite forallb_forall in Hall.
  specialize (Hall (Z.to_nat n)). rewrite Z2Nat.id in Hall by lia.
  apply String.eqb_eq, Hall, in_seq. lia.
Qed.

Lemma milliSecondsFormat_three_digits (n : Z) :
  0 <= n < 1000 -> milliSecondsFormat (Int n) = three_digits n.
Proof.
  intros Hn.
  assert (Hall : forallb (fun k => String.eqb (milliSecondsFormat (Int (Z.of_nat k)))
                                              (three_digits (Z.of_nat k)))
                         (seq 0 1000) = true) by (by vm_compute).
  rewrite forallb_forall in Hall.
  specialize (Hall (Z.to_nat n)). rewrite Z2Nat.id in Hall by lia.
  apply String.eqb_eq, Hall, in_seq. lia.
Qed.

Lemma span_string_length (d : Z) : String.length (span_string d) = 12%nat.
Proof. reflexivity. Qed.

(** X6. When both dates are valid and no UTC getter of [endDate] answers
    less than the one of [startDate], [timeSpanToString] gives the time
    between the two times of day as [HH:mm:ss.sss], twelve characters with
    zeros in front. *)
Theorem timeSpanToString_format (startDate endDate : UTCDate) :
  valid_time startDate ->
  valid_time endDate ->
  fieldwise_le startDate endDate ->
  timeSpanToString startDate endDate
    = span_string (ms_of_day endDate - ms_of_day startDate)
  /\ String.length (timeSpanToString startDate endDate) = 12%nat.
Proof.
  destruct startDate as [|h m s ms], endDate as [|h' m' s' ms']; try done.
  intros (Hh & Hm & Hs & Hms) (Hh' & Hm' & Hs' & Hms') (Lh & Lm & Ls & Lms).
  assert (Heq : timeSpanToString (UTCTime h m s ms) (UTCTime h' m' s' ms')
                = span_string (ms_of_day (UTCTime h' m' s' ms')
                               - ms_of_day (UTCTime h m s ms))).
  { unfold timeSpanToString, span_string, ms_of_day.
    cbn [getUTCHours getUTCMinutes getUTCSeconds getUTCMilliseconds js_sub].
    set (d := ((h' * 60 + m') * 60 + s') * 1000 + ms'
              - (((h * 60 + m) * 60 + s) * 1000 + ms)).
    assert (D1 : d / 3600000 = h' - h).
    { symmetry. apply (Z.div_unique _ _ _
        ((m' - m) * 60000 + (s' - s) * 1000 + (ms' - ms))); lia. }
    assert (D2 : d / 60000 mod 60 = m' - m).
    { assert (E : d / 60000 = (h' - h) * 60 + (m' - m)).
      { symmetry. apply (Z.div_unique _ _ _ ((s' - s) * 1000 + (ms' - ms))); lia. }
      rewrite E. symmetry. apply (Z.mod_unique _ _ (h' - h)); lia. }
    assert (D3 : d / 1000 mod 60 = s' - s).
    { assert (E : d / 1000 = ((h' - h) * 60 + (m' - m)) * 60 + (s' - s)).
      { symmetry. apply (Z.div_unique _ _ _ (ms' - ms)); lia. }
      rewrite E. symmetry. apply (Z.mod_unique _ _ ((h' - h) * 60 + (m' - m))); lia. }
    assert (D4 : d mod 1000 = ms' - ms).
    { symmetry.
      apply (Z.mod_unique _ _ (((h' - h) * 60 + (m' - m)) * 60 + (s' - s))); lia. }
    rewrite D1, D2, D3, D4.
    by rewrite !inTimeStampFormat_two_digits, milliSecondsFormat_three_digits by lia. }
  split; [exact Heq|]. rewrite Heq. apply span_string_length.
Qed.

Lemma timeSpanToString_format_witness :
  timeSpanToString (UTCTime 10 0 0 0) (UTCTime 15 20 10 453)
    = span_string (ms_of_day (UTCTime 15 20 10 453) - ms_of_day (UTCTime 10 0 0 0))
  /\ String.length (timeSpanToString (UTCTime 10 0 0 0) (UTCTime 15 20 10 453))
     = 12%nat.
Proof.
  apply (timeSpanToString_format (UTCTime 10 0 0 0) (UTCTime 15 20 10 453));
    simpl; lia.
Defined.

(** X7. [timeSpanToString] subtracts getter by getter and does not carry:
    when the minutes of [endDate] are below those of [startDate] (the other
    getters not below), the minutes part is a zero and a negative number, the
    result is longer than twelve characters and is the [HH:mm:ss.sss] of no
    time span. From 10:30 to 11:00 it gives [01:0-30:00.000]. *)
Theorem timeSpanToString_no_carry (h m s ms h' m' s' ms' : Z) :
  valid_time (UTCTime h m s ms) ->
  valid_time (UTCTime h' m' s' ms') ->
  h <= h' -> m' < m -> s <= s' -> ms <= ms' ->
  timeSpanToString (UTCTime h m s ms) (UTCTime h' m' s' ms')
    = two_digits (h' - h) +:+ ":0-" +:+ pretty (m - m') +:+ ":"
      +:+ two_digits (s' - s) +:+ "." +:+ three_digits (ms' - ms)
  /\ (12 < String.length (timeSpanToString (UTCTime h m s ms) (UTCTime h' m' s' ms')))%nat
  /\ (forall d, timeSpanToString (UTCTime h m s ms) (UTCTime h' m' s' ms')
                <> span_string d).
Proof.
  intros (Hh & Hm & Hs & Hms) (Hh' & Hm' & Hs' & Hms') Lh Lm Ls Lms.
  assert (Heq : timeSpanToString (UTCTime h m s ms) (UTCTime h' m' s' ms')
                = two_digits (h' - h) +:+ ":0-" +:+ pretty (m - m') +:+ ":"
                  +:+ two_digits (s' - s) +:+ "." +:+ three_digits (ms' - ms)).
  { unfold timeSpanToString.
    cbn [getUTCHours getUTCMinutes getUTCSeconds getUTCMilliseconds js_sub].
    rewrite !(inTimeStampFormat_two_digits (h' - h)),
            !(inTimeStampFormat_two_digits (s' - s)),
            milliSecondsFormat_three_digits by lia.
    unfold inTimeStampFormat, js_lt, js_to_string.
    rewrite (proj2 (Z.ltb_lt (m' - m) 10)) by lia.
    rewrite (pretty_negative (m' - m)) by lia.
    replace (- (m' - m)) with (m - m') by lia. reflexivity. }
  assert (Hlen : (12 < String.length
                         (timeSpanToString (UTCTime h m s ms) (UTCTime h' m' s' ms')))%nat).
  { rewrite Heq, !string_length_app.
    change (String.length (two_digits (h' - h))) with 2%nat.
    change (String.length (two_digits (s' - s))) with 2%nat.
    change (String.length (three_digits (ms' - ms))) with 3%nat.
    cbn [String.length].
    assert (Hall : forallb (fun k => Nat.leb 1 (String.length (pretty (Z.of_nat k))))
                           (seq 1 59) = true) by (by vm_compute).
    rewrite forallb_forall in Hall.
    specialize (Hall (Z.to_nat (m - m'))). rewrite Z2Nat.id in Hall by lia.
    assert (Hne : (1 <= String.length (pretty (m - m')%Z))%nat)
      by (apply Nat.leb_le, Hall, in_seq; lia).
    lia. }
  split; [exact Heq|]. split; [exact Hlen|].
  intros d Hd. rewrite Hd, span_string_length in Hlen. lia.
Qed.

Lemma timeSpanToString_no_carry_witness :
  timeSpanToString (UTCTime 10 30 0 0) (UTCTime 11 0 0 0)
    = two_digits (11 - 10) +:+ ":0-" +:+ pretty (30 - 0) +:+ ":"
      +:+ two_digits (0 - 0) +:+ "." +:+ three_digits (0 - 0)
  /\ (12 < String.length (timeSpanToString (UTCTime 10 30 0 0) (UTCTime 11 0 0 0)))%nat
  /\ (forall d, timeSpanToString (UTCTime 10 30 0 0) (UTCTime 11 0 0 0)
                <> span_string d).
Proof.
  apply (timeSpanToString_no_carry 10 30 0 0 11 0 0 0); simpl; lia.
Defined.

(** X8. With an invalid date on either side every part of the result is
    NaN. *)
Theorem timeSpanToString_invalid (d : UTCDate) :
  timeSpanToString InvalidUTCDate d = "NaN:NaN:NaN.NaN"
  /\ timeSpanToString d InvalidUTCDate = "NaN:NaN:NaN.NaN".
Proof. by destruct d. Qed.

(** ** mergeSortedSequences with an empty source, and on finite sources *)

Section MoreConsumerFacts.
Context {W V St : Type}.
Variable next : St -> W -> IterResult V * St * W.

Lemma pulls_length (n : nat) (s : St) (w : W) :
  length (pulls next n s w).1.1 = n.
Proof.
  revert s w. induction n as [|n IH]; intros s w; [done|].
  rewrite pulls_results_S. simpl. by rewrite IH.
Qed.

Lemma pulls_take (n m : nat) (s : St) (w : W) :
  (pulls next n s w).1.1 = take n (pulls next (n + m) s w).1.1.
Proof.
  pose proof (pulls_length n s w) as Hlen. rewrite pulls_app.
  destruct (pulls next n s w) as [[rs1 s1] w1].
  destruct (pulls next m s1 w1) as [[rs2 s2] w2].
  cbn [fst] in *. by rewrite take_app_length'.
Qed.
End MoreConsumerFacts.

Lemma merge_empty_left_pulls {W St2 : Type}
    (next2 : St2 -> W -> IterResult number * St2 * W) (n : nat) (s2 : St2) (w : W) :
  (pulls (merge_next list_next next2) n (MergeLoop [] s2) w).1.1 =
  map (fun r => yielded (value r)) (pulls next2 n s2 w).1.1.
Proof.
  revert s2 w. induction n as [|n IH]; intros s2 w; [done|].
  rewrite !pulls_results_S. cbn [merge_next list_next].
  destruct (next2 s2 w) as [[r2 s2'] w2].
  cbn [value finished fst snd map]. by rewrite IH.
Qed.

Lemma merge_empty_right_pulls {W St1 : Type}
    (next1 : St1 -> W -> IterResult number * St1 * W) (n : nat) (s1 : St1) (w : W) :
  (pulls (merge_next next1 list_next) n (MergeLoop s1 []) w).1.1 =
  map (fun r => yielded (value r)) (pulls next1 n s1 w).1.1.
Proof.
  revert s1 w. induction n as [|n IH]; intros s1 w; [done|].
  rewrite !pulls_results_S. cbn [merge_next list_next].
  destruct (next1 s1 w) as [[r1 s1'] w1].
  destruct r1 as [[v|] d]; cbn [value finished fst snd map]; by rewrite IH.
Qed.

(** X9. Merged with a source that yields nothing, any source comes out as it
    is: call after call the merge yields the value the source gives at that
    call, [undefined] included, and never answers [done]. *)
Theorem mergeSortedSequences_empty_source :
  (forall (W : Type) (source : Generator W number) (n : nat) (w : W),
      pull (mergeSortedSequences (list_source []) source) n w =
      map (fun r => yielded (value r)) (pull source n w))
  /\ (forall (W : Type) (source : Generator W number) (n : nat) (w : W),
         pull (mergeSortedSequences source (list_source [])) n w =
         map (fun r => yielded (value r)) (pull source n w)).
Proof.
  split; intros W source n w; open_generator @mergeSortedSequences;
    open_generator @list_source.
  - apply merge_empty_left_pulls.
  - apply merge_empty_right_pulls.
Qed.

Lemma rounds_permutation (a b : list Z) :
  rounds (map Int a) (map Int b) ≡ₚ map Int (a ++ b).
Proof.
  revert b. induction a as [|x a IH]; intros b; [by destruct b|].
  destruct b as [|y b]; [by rewrite app_nil_r|].
  cbn [map rounds Math_min Math_max app]. rewrite IH, !map_app. cbn [map].
  rewrite <- Permutation_middle.
  destruct (Z.le_ge_cases x y) as [Hle|Hge].
  - by rewrite Z.min_l, Z.max_r by done.
  - rewrite Z.min_r, Z.max_l by lia. apply perm_swap.
Qed.

(** X10. From two finite sources of integers the merge yields, before the
    endless [undefined]s, as many values as both sources hold, and these are
    the values of both sources with their multiplicities: none is lost,
    none is made up. *)
Theorem mergeSortedSequences_keeps_values {W : Type} (a b : list Z) (w : W) :
  exists vs : list number,
    pull (mergeSortedSequences (list_source (map Int a)) (list_source (map Int b)))
         (length a + length b) w = map (fun x => yielded (Some x)) vs
    /\ vs ≡ₚ map Int (a ++ b).
Proof.
  exists (rounds (map Int a) (map Int b)). split; [|apply rounds_permutation].
  open_generator @mergeSortedSequences. open_generator @list_source.
  pose proof (merge_lists_pulls (map Int a) (map Int b) 0 w) as Hp.
  rewrite !length_map, Nat.add_0_r, app_nil_r in Hp. by rewrite Hp.
Qed.

Lemma rounds_comm (l1 l2 : list number) : rounds l1 l2 = rounds l2 l1.
Proof.
  revert l2. induction l1 as [|x l1 IH]; intros [|y l2]; try done.
  cbn [rounds]. rewrite IH. f_equal; [|f_equal].
  - destruct x, y; cbn [Math_min]; try done. by rewrite Z.min_comm.
  - destruct x, y; cbn [Math_max]; try done. by rewrite Z.max_comm.
Qed.

Lemma merge_lists_pull {W : Type} (l1 l2 : list number) (n : nat) (w : W) :
  pull (mergeSortedSequences (list_source l1) (list_source l2)) n w =
  take n (map (fun x => yielded (Some x)) (rounds l1 l2)
          ++ replicate n (yielded None)).
Proof.
  open_generator @mergeSortedSequences. open_generator @list_source.
  rewrite (pulls_take _ n (length l1 + length l2)).
  replace (n + (length l1 + length l2))%nat with (length l1 + length l2 + n)%nat
    by lia.
  by rewrite merge_lists_pulls.
Qed.

(** X11. On finite sources the merge does not depend on which source is given
    first: at every call both orders answer the same. *)
Theorem mergeSortedSequences_symmetric {W : Type} (l1 l2 : list number)
    (n : nat) (w : W) :
  pull (mergeSortedSequences (list_source l1) (list_source l2)) n w =
  pull (mergeSortedSequences (list_source l2) (list_source l1)) n w.
Proof. by rewrite !merge_lists_pull, rounds_comm. Qed.

(** ** depthTraversalTree and the store *)

Lemma reverse_node_involutive (nd : node) : reverse_node (reverse_node nd) = nd.
Proof.
  destruct nd as [p [cs|]]; unfold reverse_node; simpl; [|done].
  by rewrite rev_involutive.
Qed.

Lemma reverse_children_lookup (h : store) (c r : nat) :
  reverse_children h c !! r =
  if decide (c = r) then reverse_node <$> h !! c else h !! r.
Proof. unfold reverse_children. by rewrite lookup_alter. Qed.

Lemma foldl_reverse_children_lookup (l : list nat) (h : store) (r : nat) :
  NoDup l ->
  foldl reverse_children h l !! r =
  if decide (r ∈ l) then reverse_node <$> h !! r else h !! r.
Proof.
  revert h. induction l as [|x l IH]; intros h Hnd.
  - cbn [foldl]. by rewrite decide_False by apply not_elem_of_nil.
  - apply NoDup_cons in Hnd as [Hx Hnd]. cbn [foldl].
    rewrite IH, !reverse_children_lookup by done.
    destruct (decide (x = r)) as [->|Hne].
    + rewrite (decide_False (P := r ∈ l)) by done.
      by rewrite decide_True by left.
    + destruct (decide (r ∈ l)) as [Hin|Hnin].
      * by rewrite decide_True by by right.
      * rewrite decide_False; [done|].
        intros [->|?]%elem_of_cons; [done|by apply Hnin].
Qed.

Lemma dfs_collect (h : store) (t : tree) :
  holds h t ->
  NoDup (preorder t) ->
  collect (depthTraversalTree (root t)) (S (tsize t)) h =
  Some (map Some (preorder t), foldl reverse_children h (preorder t)).
Proof.
  intros Ht Hnd. open_generator depthTraversalTree.
  pose proof (dfs_forest (tsize t) [t] h) as Hf.
  cbn [map rev app flat_map] in Hf. rewrite !app_nil_r in Hf.
  rewrite Hf; [done| | |done].
  - unfold fsize. simpl. lia.
  - by apply Forall_singleton.
Qed.

(** X12. After a whole depth-first traversal of a tree of distinct nodes the
    store holds every node of the tree with its [children] array reversed
    and its payload as it was, and every other object untouched. *)
Theorem depthTraversalTree_store_after (h : store) (t : tree) :
  holds h t ->
  NoDup (preorder t) ->
  exists h' : store,
    collect (depthTraversalTree (root t)) (S (tsize t)) h
      = Some (map Some (preorder t), h')
    /\ (forall r, node_of r t -> h' !! r = reverse_node <$> h !! r)
    /\ (forall r, ~ node_of r t -> h' !! r = h !! r).
Proof.
  intros Ht Hnd. exists (foldl reverse_children h (preorder t)).
  split; [by apply dfs_collect|].
  split; intros r Hr; rewrite foldl_reverse_children_lookup by done.
  - by rewrite decide_True by by apply node_of_preorder.
  - rewrite decide_False; [done|]. intros Hin. by apply Hr, node_of_preorder.
Qed.

Lemma depthTraversalTree_store_after_witness :
  exists h' : store,
    collect (depthTraversalTree (root example_tree)) (S (tsize example_tree))
            example_store = Some (map Some (preorder example_tree), h')
    /\ (forall r, node_of r example_tree ->
                  h' !! r = reverse_node <$> example_store !! r)
    /\ (forall r, ~ node_of r example_tree -> h' !! r = example_store !! r).
Proof.
  apply (depthTraversalTree_store_after example_store example_tree).
  - repeat first [ apply Forall_nil_2
                 | apply Forall_cons_2
                 | eapply holds_node; [reflexivity | reflexivity | ] ].
  - apply (bool_decide_unpack _). vm_compute. reflexivity.
Defined.

Lemma root_mirror (t : tree) : root (mirror t) = root t.
Proof. by destruct t. Qed.

Lemma flat_map_preorder_perm (ks ks' : list tree) :
  Forall2 (fun k k' => preorder k' ≡ₚ preorder k) ks ks' ->
  flat_map preorder ks' ≡ₚ flat_map preorder ks.
Proof.
  induction 1 as [|k k' ks ks' Hk _ IH]; [done|].
  cbn [flat_map]. by rewrite Hk, IH.
Qed.

Lemma preorder_mirror (t : tree) : preorder (mirror t) ≡ₚ preorder t.
Proof.
  induction t as [id ks IH] using tree_ind_forall.
  cbn [mirror preorder]. constructor.
  rewrite <- (Permutation_rev (map mirror ks)).
  apply flat_map_preorder_perm.
  induction IH as [|k ks Hk _ IHks]; constructor; done.
Qed.

Lemma length_preorder (t : tree) : length (preorder t) = tsize t.
Proof.
  induction t as [id ks IH] using tree_ind_forall.
  cbn [preorder tsize length]. f_equal.
  induction IH as [|k ks Hk _ IHks]; [done|].
  cbn [flat_map map list_sum foldr fold_right]. rewrite length_app, Hk, IHks. done.
Qed.

Lemma tsize_mirror (t : tree) : tsize (mirror t) = tsize t.
Proof.
  rewrite <- !length_preorder. apply Permutation_length, preorder_mirror.
Qed.

(** A store that has the nodes of [t] reversed holds the mirror image. *)
Lemma holds_mirror (h h' : store) (t : tree) :
  holds h t ->
  (forall r, r ∈ preorder t -> h' !! r = reverse_node <$> h !! r) ->
  holds h' (mirror t).
Proof.
  induction t as [id ks IH] using tree_ind_forall. intros Hh Hrev.
  apply holds_inv in Hh as (nd & Hnd & Hcs & Hks).
  cbn [mirror]. apply (holds_node h' id _ (reverse_node nd)).
  - rewrite Hrev, Hnd; [done | simpl; left].
  - rewrite map_rev, map_map.
    rewrite (map_ext (fun k => root (mirror k)) root) by apply root_mirror.
    rewrite <- Hcs. by destruct nd as [p [cs|]].
  - apply Forall_forall. intros k' Hk'.
    apply list_elem_of_In, in_rev, in_map_iff in Hk' as (k & <- & Hk).
    apply list_elem_of_In in Hk.
    rewrite Forall_forall in IH, Hks. apply IH; [done | by apply Hks |].
    intros r Hr. apply Hrev. simpl. right.
    apply elem_of_flat_map_preorder. eauto.
Qed.

(** X13. Two whole depth-first traversals of a tree of distinct nodes, one
    after the other: the first yields the pre-order, the second yields the
    pre-order of the mirror image (children from right to left), and after
    the second the store is again as it was before the first. *)
Theorem depthTraversalTree_twice_restores (h : store) (t : tree) :
  holds h t ->
  NoDup (preorder t) ->
  exists h1 : store,
    collect (depthTraversalTree (root t)) (S (tsize t)) h
      = Some (map Some (preorder t), h1)
    /\ collect (depthTraversalTree (root t)) (S (tsize t)) h1
       = Some (map Some (preorder (mirror t)), h).
Proof.
  intros Ht Hnd. exists (foldl reverse_children h (preorder t)).
  split; [by apply dfs_collect|].
  assert (Hnd' : NoDup (preorder (mirror t))) by by rewrite preorder_mirror.
  assert (Ht' : holds (foldl reverse_children h (preorder t)) (mirror t)).
  { apply (holds_mirror h); [done|]. intros r Hr.
    by rewrite foldl_reverse_children_lookup, decide_True by done. }
  pose proof (dfs_collect _ _ Ht' Hnd') as Hc.
  rewrite root_mirror, tsize_mirror in Hc. rewrite Hc. do 2 f_equal.
  apply map_eq. intros r.
  rewrite !foldl_reverse_children_lookup by done.
  destruct (decide (r ∈ preorder (mirror t))) as [Hin|Hnin].
  - rewrite decide_True by by rewrite <- (preorder_mirror t).
    destruct (h !! r) as [nd|]; [|done]. simpl.
    by rewrite reverse_node_involutive.
  - rewrite decide_False; [done|]. by rewrite <- (preorder_mirror t).
Qed.

Lemma depthTraversalTree_twice_restores_witness :
  exists h1 : store,
    collect (depthTraversalTree (root example_tree)) (S (tsize example_tree))
            example_store = Some (map Some (preorder example_tree), h1)
    /\ collect (depthTraversalTree (root example_tree)) (S (tsize example_tree)) h1
       = Some (map Some (preorder (mirror example_tree)), example_store).
Proof.
  apply (depthTraversalTree_twice_restores example_store example_tree).
  - repeat first [ apply Forall_nil_2
                 | apply Forall_cons_2
                 | eapply holds_node; [reflexivity | reflexivity | ] ].
  - apply (bool_decide_unpack _). vm_compute. reflexivity.
Defined.

Lemma same_object_refl (o : option node) : same_object o o.
Proof. destruct o as [[p [cs|]]|]; simpl; done. Qed.

Lemma same_object_trans (o1 o2 o3 : option node) :
  same_object o1 o2 -> same_object o2 o3 -> same_object o1 o3.
Proof.
  destruct o1 as [[p1 [c1|]]|], o2 as [[p2 [c2|]]|], o3 as [[p3 [c3|]]|];
    simpl; try tauto.
  - intros [-> H12] [-> H23]. split; [done|]. by rewrite H23.
  - by intros [-> _] [-> _].
Qed.

Lemma same_object_reverse (o : option node) : same_object o (reverse_node <$> o).
Proof.
  destruct o as [[p [cs|]]|]; simpl; try done.
  split; [done|]. symmetry. apply Permutation_rev.
Qed.

Lemma dfs_next_same_object (s : dfs_state) (h : store) (r : nat) :
  same_object (h !! r) ((dfs_next s h).2 !! r).
Proof.
  destruct s as [nodes|curr nodes|]; cbn [dfs_next].
  - unfold dfs_loop. destruct (array_pop nodes) as [[c rest]|];
      apply same_object_refl.
  - unfold dfs_resume. destruct (get_children h curr) as [cs|].
    + unfold dfs_loop. destruct (array_pop _) as [[c rest]|]; cbn [snd];
        rewrite reverse_children_lookup;
        (destruct (decide (curr = r)) as [->|?];
         [apply same_object_reverse | apply same_object_refl]).
    + unfold dfs_loop. destruct (array_pop nodes) as [[c rest]|];
        apply same_object_refl.
  - apply same_object_refl.
Qed.

(** X14. Whatever the store holds and however many times [.next()] is
    called, [depthTraversalTree] adds no object and removes none, changes no
    payload, and keeps the elements of every [children] array: all it may
    change is their order. *)
Theorem depthTraversalTree_keeps_objects (n : nat) (s : dfs_state) (h : store)
    (r : nat) :
  same_object (h !! r) ((pulls dfs_next n s h).2 !! r).
Proof.
  revert s h. induction n as [|n IH]; intros s h; [apply same_object_refl|].
  cbn [pulls]. pose proof (dfs_next_same_object s h r) as Hs.
  destruct (dfs_next s h) as [[res s1] h1]. cbn [snd] in Hs.
  specialize (IH s1 h1).
  destruct (pulls dfs_next n s1 h1) as [[rs s2] h2]. cbn [snd] in *.
  by apply (same_object_trans _ (h1 !! r)).
Qed.

(** ** Cycles *)

Lemma dfs_self_loop (h : store) (r : nat) (p : Z) (fuel : nat) :
  h !! r = Some (MkNode p (Some [r])) ->
  consume dfs_next fuel (DfsYielded r []) h = None.
Proof.
  intros Hr.
  assert (Hh : reverse_children h r = h).
  { apply map_eq. intros i. rewrite reverse_children_lookup.
    destruct (decide (r = i)) as [<-|?]; [|done]. by rewrite Hr. }
  induction fuel as [|fuel IH]; [done|].
  rewrite (consume_yield _ _ _ (DfsYielded r []) h h (Some r)).
  - by rewrite IH.
  - cbn [dfs_next]. unfold dfs_resume, get_children. rewrite Hr. simpl.
    by rewrite Hh.
Qed.

Lemma bfs_self_loop (h : store) (r : nat) (p : Z) (fuel k : nat) :
  h !! r = Some (MkNode p (Some [r])) ->
  consume bfs_next fuel (BfsYielded r (replicate (S k) r) (S k)) h = None.
Proof.
  intros Hr. revert k. induction fuel as [|fuel IH]; intros k; [done|].
  rewrite (consume_yield _ _ _ (BfsYielded r (replicate (S (S k)) r) (S (S k)))
             h h (Some r)).
  - by rewrite IH.
  - cbn [bfs_next]. unfold bfs_resume, get_children. rewrite Hr.
    cbn [mbind option_bind children].
    rewrite <- replicate_S_end. unfold bfs_loop.
    by rewrite lookup_replicate_2 by lia.
Qed.

(** X15. Neither traversal keeps track of the nodes it has seen: on a node
    that is its own only child both yield that node at every call, and a
    consumer never reaches the end. *)
Theorem traversals_never_end_on_cycle (h : store) (r : nat) (p : Z) (fuel : nat) :
  h !! r = Some (MkNode p (Some [r])) ->
  collect (depthTraversalTree r) fuel h = None
  /\ collect (breadthTraversalTree r) fuel h = None.
Proof.
  intros Hr. split.
  - open_generator depthTraversalTree. destruct fuel as [|fuel]; [done|].
    rewrite (consume_yield _ _ _ (DfsYielded r []) h h (Some r)) by done.
    by rewrite (dfs_self_loop h r p).
  - open_generator breadthTraversalTree. destruct fuel as [|fuel]; [done|].
    rewrite (consume_yield _ _ _ (BfsYielded r [r] 1) h h (Some r)) by done.
    pose proof (bfs_self_loop h r p fuel 0 Hr) as Hb.
    cbn [replicate] in Hb. by rewrite Hb.
Qed.

Lemma traversals_never_end_on_cycle_witness :
  collect (depthTraversalTree 1) 100 {[ 1%nat := MkNode 7 (Some [1%nat]) ]} = None
  /\ collect (breadthTraversalTree 1) 100 {[ 1%nat := MkNode 7 (Some [1%nat]) ]}
     = None.
Proof.
  apply (traversals_never_end_on_cycle _ 1%nat 7 100). reflexivity.
Defined.

(** ** isLeapYear, further *)

Lemma isLeapYear_divides (y m d : Z) :
  isLeapYear (LocalDate y m d) = true <->
  ((4 | y) /\ ~ (100 | y)) \/ (400 | y).
Proof.
  unfold isLeapYear; simpl.
  rewrite orb_true_iff, andb_true_iff, negb_true_iff.
  rewrite <- not_true_iff_false.
  rewrite !rem_zero_divide by lia. tauto.
Qed.

Lemma divide_shift_400 (k y : Z) : (k | 400) -> (k | y + 400) <-> (k | y).
Proof.
  intros Hk. split; intros Hy.
  - replace y with (y + 400 - 400) by lia. by apply Z.divide_sub_r.
  - by apply Z.divide_add_r.
Qed.

(** X16. The answer of [isLeapYear] repeats every 400 years, before the year
    0 as after it, whatever the day of the year. *)
Theorem isLeapYear_period_400 (y m d m' d' : Z) :
  isLeapYear (LocalDate (y + 400) m' d') = isLeapYear (LocalDate y m d).
Proof.
  apply eq_true_iff_eq. rewrite !isLeapYear_divides.
  rewrite (divide_shift_400 4), (divide_shift_400 100), (divide_shift_400 400);
    [done | by exists 1 | by exists 4 | by exists 100].
Qed.

(** ** mergeSortedSequences on sources that alternate *)

Lemma ascending_tail (v : option number) (vs : list (option number)) :
  ascending (v :: vs) = true -> ascending vs = true.
Proof.
  destruct v as [[a|]|]; [|done|done].
  destruct vs as [|[[b|]|] vs]; try done.
  cbn [ascending]. by intros [_ ?]%andb_prop.
Qed.

Lemma rounds_interleave (a b : list Z) :
  ascending (map (fun z => Some (Int z)) (interleave a b)) = true ->
  rounds (map Int a) (map Int b) = map Int (interleave a b).
Proof.
  revert b. induction a as [|x a IH]; intros b Hasc; [by destruct b|].
  destruct b as [|y b]; [done|].
  cbn [interleave map rounds Math_min Math_max] in *.
  assert (Hxy : x <= y).
  { cbn [ascending] in Hasc. apply andb_prop in Hasc as [Hle _]. lia. }
  rewrite Z.min_l, Z.max_r by done. do 2 f_equal.
  apply IH. by do 2 apply ascending_tail in Hasc.
Qed.

(** X17. When the plain alternation of the two finite sources (one value of
    each in turn, then the rest of the longer) is ascending, as it is in the
    examples of the documentation, the merge yields exactly that alternation:
    then, and for such sources, its result is sorted. *)
Theorem mergeSortedSequences_alternating {W : Type} (a b : list Z) (w : W) :
  ascending (map (fun z => Some (Int z)) (interleave a b)) = true ->
  values_of
    (pull (mergeSortedSequences (list_source (map Int a)) (list_source (map Int b)))
          (length a + length b) w)
  = map (fun z => Some (Int z)) (interleave a b).
Proof.
  intros Hasc. open_generator @mergeSortedSequences. open_generator @list_source.
  pose proof (merge_lists_pulls (map Int a) (map Int b) 0 w) as Hp.
  rewrite !length_map, Nat.add_0_r, app_nil_r in Hp. rewrite Hp. cbn [fst].
  unfold values_of. rewrite map_map, rounds_interleave by done.
  by rewrite map_map.
Qed.

Lemma mergeSortedSequences_alternating_witness :
  values_of
    (pull (mergeSortedSequences (list_source (map Int [0]))
                                (list_source (map Int [2; 4; 6])))
          (length [0] + length [2; 4; 6]) tt)
  = map (fun z => Some (Int z)) (interleave [0] [2; 4; 6]).
Proof.
  apply (mergeSortedSequences_alternating [0] [2; 4; 6] tt). reflexivity.
Defined.

(** ** angleBetweenClockHands *)

Lemma forall_clock (P : Z -> Z -> bool) :
  forallb (fun h => forallb (fun m => P (Z.of_nat h) (Z.of_nat m)) (seq 0 60))
          (seq 0 24) = true ->
  forall h m, 0 <= h < 24 -> 0 <= m < 60 -> P h m = true.
Proof.
  intros Hall h m Hh Hm. rewrite forallb_forall in Hall.
  specialize (Hall (Z.to_nat h) ltac:(apply in_seq; lia)).
  rewrite forallb_forall in Hall.
  specialize (Hall (Z.to_nat m) ltac:(apply in_seq; lia)).
  by rewrite !Z2Nat.id in Hall by lia.
Qed.

(** X18. For every valid date the angle [angleBetweenClockHands] returns is a
    number from 0 to [Math.PI], both included; for an invalid date it is
    NaN. *)
Theorem angleBetweenClockHands_range :
  (forall date : UTCDate,
      valid_time date ->
      (0 <=? angleBetweenClockHands date)%float = true
      /\ (angleBetweenClockHands date <=? Math_PI)%float = true)
  /\ is_nan (angleBetweenClockHands InvalidUTCDate) = true.
Proof.
  split; [|by vm_compute].
  intros [|h m s ms]; [done|]. intros (Hh & Hm & _ & _).
  pose proof (forall_clock
    (fun h m => (0 <=? angleBetweenClockHands (UTCTime h m 0 0))%float
                && (angleBetweenClockHands (UTCTime h m 0 0) <=? Math_PI)%float)
    ltac:(by vm_compute) h m Hh Hm) as Hr.
  by apply andb_prop in Hr.
Qed.

Lemma angleBetweenClockHands_range_witness :
  (0 <=? angleBetweenClockHands (UTCTime 21 0 0 0))%float = true
  /\ (angleBetweenClockHands (UTCTime 21 0 0 0) <=? Math_PI)%float = true.
Proof.
  apply (proj1 angleBetweenClockHands_range (UTCTime 21 0 0 0)). simpl. lia.
Defined.

(** X19. The angle does not tell morning from afternoon, and does not move
    with the seconds: twelve hours later, at whatever second, it is the
    same number. *)
Theorem angleBetweenClockHands_half_day (h m s ms s' ms' : Z) :
  0 <= h < 12 ->
  0 <= m < 60 ->
  PrimFloat.Leibniz.eqb (angleBetweenClockHands (UTCTime (h + 12) m s' ms'))
                        (angleBetweenClockHands (UTCTime h m s ms)) = true.
Proof.
  intros Hh Hm.
  assert (Hall : forallb (fun h => forallb (fun m =>
            PrimFloat.Leibniz.eqb
              (angleBetweenClockHands (UTCTime (Z.of_nat h + 12) (Z.of_nat m) 0 0))
              (angleBetweenClockHands (UTCTime (Z.of_nat h) (Z.of_nat m) 0 0)))
            (seq 0 60)) (seq 0 12) = true) by (by vm_compute).
  rewrite forallb_forall in Hall.
  specialize (Hall (Z.to_nat h) ltac:(apply in_seq; lia)).
  rewrite forallb_forall in Hall.
  specialize (Hall (Z.to_nat m) ltac:(apply in_seq; lia)).
  by rewrite !Z2Nat.id in Hall by lia.
Qed.

Lemma angleBetweenClockHands_half_day_witness :
  PrimFloat.Leibniz.eqb (angleBetweenClockHands (UTCTime (9 + 12) 0 30 500))
                        (angleBetweenClockHands (UTCTime 9 0 0 0)) = true.
Proof.
  apply (angleBetweenClockHands_half_day 9 0 0 0 30 500); lia.
Defined.

(** X20. At every valid time but 6:31 and 18:31 the result is, bit for bit,
    the formula |30 h - 5.5 m| degrees turned into radians and folded at
    [Math.PI]. At 6:31 and 18:31 [m / 60 * 30] is rounded below 15.5 and the
    result is another binary64 number. *)
Theorem angleBetweenClockHands_formula :
  (forall h m s ms : Z,
      0 <= h < 24 ->
      0 <= m < 60 ->
      (h mod 12 =? 6) && (m =? 31) = false ->
      PrimFloat.Leibniz.eqb (angleBetweenClockHands (UTCTime h m s ms))
                            (clock_angle_formula h m) = true)
  /\ PrimFloat.Leibniz.eqb (angleBetweenClockHands (UTCTime 6 31 0 0))
                           (clock_angle_formula 6 31) = false
  /\ PrimFloat.Leibniz.eqb (angleBetweenClockHands (UTCTime 18 31 0 0))
                           (clock_angle_formula 18 31) = false.
Proof.
  split; [|split; by vm_compute].
  intros h m s ms Hh Hm Hne.
  pose proof (forall_clock
    (fun h m => (h mod 12 =? 6) && (m =? 31)
                || PrimFloat.Leibniz.eqb (angleBetweenClockHands (UTCTime h m 0 0))
                                         (clock_angle_formula h m))
    ltac:(by vm_compute) h m Hh Hm) as Hr.
  cbv beta in Hr. rewrite Hne in Hr. exact Hr.
Qed.

Lemma angleBetweenClockHands_formula_witness :
  PrimFloat.Leibniz.eqb (angleBetweenClockHands (UTCTime 15 20 10 453))
                        (clock_angle_formula 15 20) = true.
Proof.
  apply (proj1 angleBetweenClockHands_formula 15 20 10 453); [lia | lia | reflexivity].
Defined.
